(** * Viewport transform, compositing and crop extraction of the image editor

    A shallow embedding of the TypeScript sources

    - [hooks/useImageTransform.ts]  (module [Controller]),
    - [hooks/useWatermark.ts]       (modules [Geometry], [Watermark]),
    - [components/ImageEditor.tsx]  (modules [Geometry], [Editor]),
    - [services/geminiService.ts]   (module [Service]),

    with the JavaScript strings and string-to-number conversion they rely on
    ([JsString], [JsNum]) and the 2D drawing surface ([Canvas]), followed by
    the statements of the specification ([Spec]) and their proofs.

    Numbers.  A JavaScript [number] is an IEEE-754 binary64 value.  The
    geometry below is stated over exact rationals [Q]: binary64 rounding,
    overflow and underflow are not modelled there, and wherever the source
    divides, the theorems assume the divisor non-zero (Rocq's [x / 0] is
    [0], the source's is an infinity or NaN).  Where the source itself
    branches on [NaN] or on an infinity ([parseAspectRatio]) the type
    [JsNum.number] carries them explicitly.  Where rounding decides what the
    program does (the seed of [handleSelectAspectRatio] against
    [clampPosition]) the same code is run on binary64 values in module
    [Binary64].  A canvas keeps its size in whole pixels
    ([Canvas.storedSize]).

    State.  The component keeps its state in React cells.  A handler reads
    the cells and queues setter calls ([Editor.Update]); the hook's listeners
    are transitions of [Controller.HookState].  What the browser and the
    generation service answer is a parameter ([Editor.Browser]). *)

From Stdlib Require Import QArith Qminmax Qround Qabs Lqa Lia ZArith.
From Stdlib Require Import Bool List String Ascii.
From Stdlib Require Floats Uint63.
Import ListNotations.

Local Open Scope Q_scope.

(* ================================================================== *)
(** ** hooks/useImageTransform.ts : the viewport transform controller *)

Module Controller.

(** [interface Transform { scale; x; y }] *)
Record Transform : Type := mkTransform { scale : Q; x : Q; y : Q }.

(** [interface Dimensions { width; height }] *)
Record Dimensions : Type := mkDimensions { width : Q; height : Q }.

(** The two attributes of [HTMLCanvasElement] the hook reads. *)
Record HTMLCanvasElement : Type :=
  mkCanvas { canvas_width : Q; canvas_height : Q }.

(** The fields of [MouseEvent] and [WheelEvent] the handlers read. *)
Record MouseEvent : Type := mkMouseEvent { offsetX : Q; offsetY : Q }.
Record WheelEvent : Type :=
  mkWheelEvent { wheelOffsetX : Q; wheelOffsetY : Q; deltaY : Q }.

(** The JavaScript comparison [a < b] on finite numbers. *)
Definition Qltb (a b : Q) : bool := negb (Qle_bool b a).

(** [const clampPosition = (newTransform, canvas, imgDim) => ...] *)
Definition clampPosition
    (newTransform : Transform) (canvas : HTMLCanvasElement)
    (imgDim : Dimensions) : Transform :=
  let scaledWidth := width imgDim * scale newTransform in
  let scaledHeight := height imgDim * scale newTransform in
  let clampedX :=
    Qmin 0 (Qmax (x newTransform) (canvas_width canvas - scaledWidth)) in
  let clampedY :=
    Qmin 0 (Qmax (y newTransform) (canvas_height canvas - scaledHeight)) in
  {| scale := scale newTransform; x := clampedX; y := clampedY |}.

(** The updater [handleMouseMove] passes to [setTransform]. *)
Definition dragUpdate (dx dy : Q) (canvas : HTMLCanvasElement)
    (imageDimensions : Dimensions) (prevTransform : Transform) : Transform :=
  let newTransform :=
    {| scale := scale prevTransform;
       x := x prevTransform + dx;
       y := y prevTransform + dy |} in
  clampPosition newTransform canvas imageDimensions.

(** The candidate [clamped] computed inside [handleWheel]'s updater. *)
Definition wheelCandidate (e : WheelEvent) (canvas : HTMLCanvasElement)
    (imageDimensions : Dimensions) (prevTransform : Transform) : Transform :=
  let scaleAmount := deltaY e * - (1 # 1000) in
  let newScale := Qmax (1 # 10) (scale prevTransform + scaleAmount) in
  let mouseX := wheelOffsetX e in
  let mouseY := wheelOffsetY e in
  let imagePointX := (mouseX - x prevTransform) / scale prevTransform in
  let imagePointY := (mouseY - y prevTransform) / scale prevTransform in
  let newX := mouseX - imagePointX * newScale in
  let newY := mouseY - imagePointY * newScale in
  let newTransform := {| scale := newScale; x := newX; y := newY |} in
  clampPosition newTransform canvas imageDimensions.

(** The test guarding [return prevTransform] in [handleWheel]. *)
Definition revealsEmptySpace (clamped : Transform)
    (canvas : HTMLCanvasElement) (imageDimensions : Dimensions) : bool :=
  Qltb (scale clamped * width imageDimensions) (canvas_width canvas)
  || Qltb (scale clamped * height imageDimensions) (canvas_height canvas).

(** The updater [handleWheel] passes to [setTransform]. *)
Definition wheelUpdate (e : WheelEvent) (canvas : HTMLCanvasElement)
    (imageDimensions : Dimensions) (prevTransform : Transform) : Transform :=
  let clamped := wheelCandidate e canvas imageDimensions prevTransform in
  if revealsEmptySpace clamped canvas imageDimensions
  then prevTransform
  else clamped.

(** *** The hook as a state machine

    The mutable cells of the hook: the [transform] state owned by the
    caller, [isDraggingRef] and [lastMousePositionRef]. *)
Record HookState : Type := mkHookState {
  transform : Transform;
  isDragging : bool;
  lastMousePosition : MouseEvent
}.

Inductive Event : Type :=
| MouseDown (e : MouseEvent)
| MouseUp
| MouseLeave
| MouseMove (e : MouseEvent)
| Wheel (e : WheelEvent).

Definition handleMouseDown (e : MouseEvent) (st : HookState) : HookState :=
  {| transform := transform st;
     isDragging := true;
     lastMousePosition := {| offsetX := offsetX e; offsetY := offsetY e |} |}.

Definition handleMouseUp (st : HookState) : HookState :=
  {| transform := transform st;
     isDragging := false;
     lastMousePosition := lastMousePosition st |}.

Definition handleMouseLeave (st : HookState) : HookState :=
  {| transform := transform st;
     isDragging := false;
     lastMousePosition := lastMousePosition st |}.

Definition handleMouseMove (canvas : HTMLCanvasElement)
    (imageDimensions : Dimensions) (e : MouseEvent) (st : HookState)
    : HookState :=
  if negb (isDragging st) then st
  else
    let dx := offsetX e - offsetX (lastMousePosition st) in
    let dy := offsetY e - offsetY (lastMousePosition st) in
    {| transform := dragUpdate dx dy canvas imageDimensions (transform st);
       isDragging := isDragging st;
       lastMousePosition := {| offsetX := offsetX e; offsetY := offsetY e |} |}.

Definition handleWheel (canvas : HTMLCanvasElement)
    (imageDimensions : Dimensions) (e : WheelEvent) (st : HookState)
    : HookState :=
  {| transform := wheelUpdate e canvas imageDimensions (transform st);
     isDragging := isDragging st;
     lastMousePosition := lastMousePosition st |}.

(** The listeners are only installed when the canvas exists, the transform
    is enabled and the image dimensions are known (the guard that opens
    the effect); otherwise no event reaches the hook. *)
Definition dispatch (canvas : option HTMLCanvasElement)
    (isTransformEnabled : bool) (imageDimensions : option Dimensions)
    (ev : Event) (st : HookState) : HookState :=
  match canvas, isTransformEnabled, imageDimensions with
  | Some c, true, Some d =>
      match ev with
      | MouseDown e => handleMouseDown e st
      | MouseUp => handleMouseUp st
      | MouseLeave => handleMouseLeave st
      | MouseMove e => handleMouseMove c d e st
      | Wheel e => handleWheel c d e st
      end
  | _, _, _ => st
  end.

(** Events are handled one at a time, each on the latest state. *)
Fixpoint run (canvas : option HTMLCanvasElement) (isTransformEnabled : bool)
    (imageDimensions : option Dimensions) (evs : list Event)
    (st : HookState) : HookState :=
  match evs with
  | [] => st
  | ev :: evs' =>
      run canvas isTransformEnabled imageDimensions evs'
          (dispatch canvas isTransformEnabled imageDimensions ev st)
  end.

(** *** The cover invariant of the specification *)

Definition covers (c : HTMLCanvasElement) (d : Dimensions) (t : Transform)
    : Prop :=
  canvas_width c <= scale t * width d /\
  canvas_height c <= scale t * height d.

Definition within_bounds (c : HTMLCanvasElement) (d : Dimensions)
    (t : Transform) : Prop :=
  (canvas_width c - scale t * width d <= x t /\ x t <= 0) /\
  (canvas_height c - scale t * height d <= y t /\ y t <= 0).

Definition cover_invariant (c : HTMLCanvasElement) (d : Dimensions)
    (t : Transform) : Prop :=
  covers c d t /\ within_bounds c d t.

(** [coverScale(canvasW, canvasH, imgW, imgH) = max(canvasW/imgW, canvasH/imgH)],
    as the specification defines it. *)
Definition coverScale (c : HTMLCanvasElement) (d : Dimensions) : Q :=
  Qmax (canvas_width c / width d) (canvas_height c / height d).

Definition positive_sizes (c : HTMLCanvasElement) (d : Dimensions) : Prop :=
  (0 < canvas_width c /\ 0 < canvas_height c) /\
  (0 < width d /\ 0 < height d).

(** Two transforms denote the same numbers. *)
Definition Teq (t u : Transform) : Prop :=
  scale t == scale u /\ x t == x u /\ y t == y u.

End Controller.

(* ================================================================== *)
(** ** JavaScript strings and the conversion [Number(string)] *)

Module JsString.

Local Open Scope string_scope.

(** A [string] is read as a sequence of UTF-16 code units below 256. *)

(** [s.includes(sub)] *)
Fixpoint includes (s sub : string) : bool :=
  String.prefix sub s
  || match s with
     | EmptyString => false
     | String _ rest => includes rest sub
     end.

(** [s.split(sep)] for a separator of one code unit. *)
Fixpoint split (sep : ascii) (s : string) : list string :=
  match s with
  | EmptyString => [EmptyString]
  | String c rest =>
      if Ascii.eqb c sep then EmptyString :: split sep rest
      else match split sep rest with
           | piece :: pieces => String c piece :: pieces
           | [] => [String c EmptyString]
           end
  end.

(** A JavaScript truthiness test on [string | null]: [null] and the empty
    string are falsy. *)
Definition truthy (o : option string) : bool :=
  match o with
  | Some s => negb (String.eqb s "")
  | None => false
  end.

End JsString.

Module JsNum.

Local Open Scope Z_scope.

(** The values of type [number] that the parser can produce.  Finite values
    are kept in lowest terms, so that equal numbers are equal terms; the sign
    of zero is not represented ([===] does not observe it).  A finite
    literal is kept as the rational it writes: its rounding to binary64,
    and the overflow to an infinity or the underflow to zero of a literal
    beyond the range, are not applied. *)
Inductive number : Type :=
| NaN
| Infinity (negative : bool)
| Fin (q : Q).

Definition isNaN (n : number) : bool :=
  match n with NaN => true | _ => false end.

(** [n === 0] *)
Definition is_zero (n : number) : bool :=
  match n with Fin q => Qeq_bool q 0 | _ => false end.

Definition Qnegative (q : Q) : bool := (Qnum q <? 0)%Z.

(** [a / b] on [number]; a zero divisor counts as [+0]. *)
Definition div (a b : number) : number :=
  match a, b with
  | NaN, _ | _, NaN => NaN
  | Infinity _, Infinity _ => NaN
  | Infinity s, Fin q => Infinity (xorb s (Qnegative q))
  | Fin _, Infinity _ => Fin 0
  | Fin p, Fin q =>
      if Qeq_bool q 0 then
        if Qeq_bool p 0 then NaN else Infinity (Qnegative p)
      else Fin (Qred (p / q))
  end.

(** *** [StringToNumber] (ECMA-262, 7.1.4.1.1) *)

Definition code (c : ascii) : Z := Z.of_N (N_of_ascii c).

(** [StrWhiteSpaceChar] among the code units below 256: TAB, LF, VT, FF, CR,
    SP and NBSP. *)
Definition isWhiteSpace (c : ascii) : bool :=
  let n := code c in
  ((9 <=? n) && (n <=? 13)) || (n =? 32) || (n =? 160).

Fixpoint trimStart (s : string) : string :=
  match s with
  | String c rest => if isWhiteSpace c then trimStart rest else s
  | EmptyString => EmptyString
  end.

(** Drops trailing white space: a white-space unit is kept only when
    something that is not white space follows it. *)
Fixpoint trimEnd (s : string) : string :=
  match s with
  | EmptyString => EmptyString
  | String c rest =>
      match trimEnd rest with
      | EmptyString => if isWhiteSpace c then EmptyString
                       else String c EmptyString
      | kept => String c kept
      end
  end.

Definition trim (s : string) : string := trimEnd (trimStart s).

(** The value of a digit in the given radix, if [c] is one. *)
Definition digitValue (radix : Z) (c : ascii) : option Z :=
  let n := code c in
  let v :=
    if (48 <=? n) && (n <=? 57) then Some (n - 48)
    else if (97 <=? n) && (n <=? 102) then Some (n - 87)
    else if (65 <=? n) && (n <=? 70) then Some (n - 55)
    else None in
  match v with
  | Some d => if d <? radix then Some d else None
  | None => None
  end.

(** Reads the longest run of digits at the head of [s]: the digits read and
    what follows them. *)
Fixpoint takeDigits (radix : Z) (s : string) : list Z * string :=
  match s with
  | EmptyString => ([], EmptyString)
  | String c rest =>
      match digitValue radix c with
      | Some d => let '(ds, tail) := takeDigits radix rest in (d :: ds, tail)
      | None => ([], s)
      end
  end.

Definition digitsValue (radix : Z) (ds : list Z) : Z :=
  fold_left (fun acc d => acc * radix + d) ds 0.

(** [NonDecimalIntegerLiteral] without its two-unit prefix. *)
Definition nonDecimal (radix : Z) (body : string) : number :=
  match takeDigits radix body with
  | ((_ :: _) as ds, EmptyString) => Fin (inject_Z (digitsValue radix ds))
  | _ => NaN
  end.

(** [ExponentPart] after its indicator [e] or [E]: the exponent, when the
    rest of the string is a [SignedInteger]. *)
Definition exponentPart (s : string) : option Z :=
  let '(neg, body) :=
    match s with
    | String "+"%char rest => (false, rest)
    | String "-"%char rest => (true, rest)
    | _ => (false, s)
    end in
  match takeDigits 10 body with
  | ((_ :: _) as ds, EmptyString) =>
      let e := digitsValue 10 ds in Some (if neg then - e else e)
  | _ => None
  end.

(** [StrUnsignedDecimalLiteral] other than [Infinity]. *)
Definition unsignedDecimal (s : string) : option Q :=
  let '(intDigits, afterInt) := takeDigits 10 s in
  let '(fracDigits, afterFrac, hasDot) :=
    match afterInt with
    | String "."%char rest =>
        let '(fs, tail) := takeDigits 10 rest in (fs, tail, true)
    | _ => ([], afterInt, false)
    end in
  let mantissa :=
    (inject_Z (digitsValue 10 (intDigits ++ fracDigits))
     / Qpower 10 (Z.of_nat (List.length fracDigits)))%Q in
  match intDigits, fracDigits with
  | [], [] => None
  | _, _ =>
      match afterFrac with
      | EmptyString => Some mantissa
      | String c rest =>
          if (Ascii.eqb c "e" || Ascii.eqb c "E")%bool then
            match exponentPart rest with
            | Some e => Some (mantissa * Qpower 10 e)%Q
            | None => None
            end
          else None
      end
  end.

(** [StrDecimalLiteral]: an optional sign, then [Infinity] or digits. *)
Definition strDecimalLiteral (s : string) : number :=
  let '(neg, body) :=
    match s with
    | String "+"%char rest => (false, rest)
    | String "-"%char rest => (true, rest)
    | _ => (false, s)
    end in
  if String.eqb body "Infinity" then Infinity neg
  else match unsignedDecimal body with
       | Some q => Fin (Qred (if neg then - q else q))
       | None => NaN
       end.

(** [Number(s)] for a string [s]. *)
Definition Number (s : string) : number :=
  match trim s with
  | EmptyString => Fin 0
  | String "0"%char (String p body) as lit =>
      if (Ascii.eqb p "x" || Ascii.eqb p "X")%bool then nonDecimal 16 body
      else if (Ascii.eqb p "o" || Ascii.eqb p "O")%bool then nonDecimal 8 body
      else if (Ascii.eqb p "b" || Ascii.eqb p "B")%bool then nonDecimal 2 body
      else strDecimalLiteral lit
  | lit => strDecimalLiteral lit
  end.

End JsNum.

(* ================================================================== *)
(** ** [parseAspectRatio], declared in useWatermark.ts and ImageEditor.tsx *)

Module Geometry.

Import JsString JsNum.
Local Open Scope string_scope.

(** hooks/useWatermark.ts, lines 10-15.  The array pattern [[w, h]] binds
    the first two elements of the mapped array; an absent element would be
    [undefined], for which [isNaN] holds. *)
Definition parseAspectRatio (ratioStr : string) : option number :=
  if negb (includes ratioStr ":") then None
  else
    match List.map Number (split ":"%char ratioStr) with
    | w :: h :: _ =>
        if (isNaN w || isNaN h || is_zero h)%bool then None
        else Some (div w h)
    | _ => None
    end.

(** components/ImageEditor.tsx, lines 28-33. *)
Definition parseAspectRatio_editor (ratioStr : string) : option number :=
  if (String.eqb ratioStr "original" || negb (includes ratioStr ":"))%bool
  then None
  else
    match List.map Number (split ":"%char ratioStr) with
    | w :: h :: _ =>
        if (isNaN w || isNaN h || is_zero h)%bool then None
        else Some (div w h)
    | _ => None
    end.

(** The truthiness of [number | null] that [if (targetRatio)] tests:
    [null], [NaN] and zero are falsy. *)
Definition truthy_ratio (r : option number) : bool :=
  match r with
  | Some (Fin q) => negb (Qeq_bool q 0)
  | Some (Infinity _) => true
  | Some NaN | None => false
  end.

End Geometry.

(* ================================================================== *)
(** ** The 2D rendering surface *)

Module Canvas.

Record Rect : Type := mkRect { rect_x : Q; rect_y : Q; rect_w : Q; rect_h : Q }.

(** A decoded [HTMLImageElement]: where it came from and its size. *)
Record HTMLImageElement : Type :=
  mkImage { image_src : string; image_width : Q; image_height : Q }.

(** The calls the sources make on a [CanvasRenderingContext2D], recorded in
    program order.  [DrawImage img None dst] is the five-argument
    [drawImage(img, dx, dy, dw, dh)], [DrawImage img (Some src) dst] the
    nine-argument form. *)
Inductive CanvasOp : Type :=
| ClearRect (r : Rect)
| DrawImage (image : HTMLImageElement) (source : option Rect) (dest : Rect)
| SetGlobalAlpha (alpha : Q)
| SetFillStyle (style : string)
| SetFont (size : Q) (family : string)
| SetTextAlign (align : string)
| SetTextBaseline (baseline : string)
| FillText (text : string) (tx ty : Q).

(** The source rectangle of a [drawImage] call: the whole image when the
    call names none. *)
Definition sourceRect (image : HTMLImageElement) (source : option Rect) : Rect :=
  match source with
  | Some r => r
  | None => {| rect_x := 0; rect_y := 0;
               rect_w := image_width image; rect_h := image_height image |}
  end.

(** [drawImage] maps the source rectangle affinely onto the destination
    rectangle: where the image point [p] lands on the surface. *)
Definition place (src dst : Rect) (p : Q * Q) : Q * Q :=
  (rect_x dst + (fst p - rect_x src) * (rect_w dst / rect_w src),
   rect_y dst + (snd p - rect_y src) * (rect_h dst / rect_h src)).

(** A surface point lies on a surface of the given size. *)
Definition on_surface (w h : Q) (q : Q * Q) : Prop :=
  (0 <= fst q /\ fst q <= w) /\ (0 <= snd q /\ snd q <= h).

(** The [width] and [height] of a canvas are [unsigned long] attributes.
    Assigning a number to one of them converts it (WebIDL): the number is
    truncated towards zero and reduced modulo 2^32; a result above
    2^31 - 1 is then replaced by the attribute's default, 300 for the width
    and 150 for the height (HTML, reflecting a non-negative integer). *)
Definition toUint32 (v : Q) : Z :=
  (Z.quot (Qnum v) (Zpos (Qden v)) mod 4294967296)%Z.

Definition storedSize (default : Z) (v : Q) : Q :=
  let n := toUint32 v in
  inject_Z (if (n <=? 2147483647)%Z then n else default).

(** A rectangle that holds at least one pixel each way and whose sides a
    canvas can store. *)
Definition storable (r : Rect) : Prop :=
  (1 <= rect_w r /\ rect_w r < 2147483648) /\
  (1 <= rect_h r /\ rect_h r < 2147483648).

(** [a] is [b] up to the relative error [u].  Where [b] is the exact
    result of an operation, the binary64 operation returns such an [a] with
    [u = 2^-53], as long as it neither overflows nor underflows; with
    [u = 0] the arithmetic is exact. *)
Definition closeTo (u a b : Q) : Prop := Qabs (a - b) <= u * Qabs b.

(** The rectangle [actual] holds the four numbers of [exact] as they are
    computed, each up to the relative error [u]. *)
Definition computed (u : Q) (exact actual : Rect) : Prop :=
  closeTo u (rect_x actual) (rect_x exact) /\
  closeTo u (rect_y actual) (rect_y exact) /\
  closeTo u (rect_w actual) (rect_w exact) /\
  closeTo u (rect_h actual) (rect_h exact).

(** A surface point lies on a surface of the given size, or no further
    than [tol] from it. *)
Definition on_surface_within (tol w h : Q) (q : Q * Q) : Prop :=
  (- tol <= fst q /\ fst q <= w + tol) /\
  (- tol <= snd q /\ snd q <= h + tol).

End Canvas.

(* ================================================================== *)
(** ** types.ts and hooks/useWatermark.ts : the compositor *)

Module Watermark.

Import JsString Canvas.
Import Controller.
Local Open Scope string_scope.

(** [enum WatermarkPosition] and the string each member stands for. *)
Inductive WatermarkPosition : Type :=
| TopLeft | TopRight | BottomLeft | BottomRight | Center.

Definition position_value (p : WatermarkPosition) : string :=
  match p with
  | TopLeft => "top-left"
  | TopRight => "top-right"
  | BottomLeft => "bottom-left"
  | BottomRight => "bottom-right"
  | Center => "center"
  end.

Inductive WatermarkType : Type := TextType | LogoType.

(** [interface WatermarkSettings] *)
Record WatermarkSettings : Type := mkSettings {
  type : WatermarkType;
  text : string;
  logo : option string;
  position : WatermarkPosition;
  opacity : Q;
  fontSize : Q;
  color : string;
  fontFamily : string
}.

(** [getPosition(canvasSize, contentSize, position, isVertical = false)] *)
Definition getPosition (canvasSize contentSize : Q)
    (position : WatermarkPosition) (isVertical : bool) : Q :=
  let margin := 20 in
  if includes (position_value position) "left" then margin
  else if includes (position_value position) "right"
       then canvasSize - contentSize - margin
  else if includes (position_value position) "top" then margin
  else if includes (position_value position) "bottom"
       then canvasSize - contentSize - margin
  else (canvasSize - contentSize) / 2.

(** The width and height [drawWatermarkLogo] gives the logo. *)
Definition logoSize (logo : HTMLImageElement) (canvasWidth canvasHeight : Q)
    : Q * Q :=
  let logoAspectRatio := image_width logo / image_height logo in
  let logoWidth := canvasWidth * (15 # 100) in
  let logoHeight := logoWidth / logoAspectRatio in
  if Qltb (canvasHeight * (15 # 100)) logoHeight then
    let logoHeight := canvasHeight * (15 # 100) in
    let logoWidth := logoHeight * logoAspectRatio in
    (logoWidth, logoHeight)
  else (logoWidth, logoHeight).

(** [drawWatermarkLogo(ctx, canvasWidth, canvasHeight)], reading the logo
    from [watermarkLogoRef.current]. *)
Definition drawWatermarkLogo (watermarkLogo : option HTMLImageElement)
    (settings : WatermarkSettings) (canvasWidth canvasHeight : Q)
    : list CanvasOp :=
  match watermarkLogo with
  | None => []
  | Some logo =>
      let '(logoWidth, logoHeight) := logoSize logo canvasWidth canvasHeight in
      let x := getPosition canvasWidth logoWidth (position settings) false in
      let y := getPosition canvasHeight logoHeight (position settings) true in
      [DrawImage logo None
         {| rect_x := x; rect_y := y; rect_w := logoWidth; rect_h := logoHeight |}]
  end.

(** [drawWatermarkText(ctx, canvasWidth, canvasHeight)]; the width the
    surface measures for a text in the current font is [measureText]. *)
Definition drawWatermarkText (measureText : Q -> string -> string -> Q)
    (settings : WatermarkSettings) (canvasWidth canvasHeight : Q)
    : list CanvasOp :=
  let textWidth :=
    measureText (fontSize settings) (fontFamily settings) (text settings) in
  let textHeight := fontSize settings in
  let x := getPosition canvasWidth textWidth (position settings) false in
  let y := getPosition canvasHeight textHeight (position settings) true in
  [SetFillStyle (color settings);
   SetFont (fontSize settings) (fontFamily settings);
   SetTextAlign "left";
   SetTextBaseline "top";
   FillText (text settings) x y].

(** [applyWatermark(ctx, canvasWidth, canvasHeight)] *)
Definition applyWatermark (measureText : Q -> string -> string -> Q)
    (watermarkLogo : option HTMLImageElement) (settings : WatermarkSettings)
    (canvasWidth canvasHeight : Q) : list CanvasOp :=
  [SetGlobalAlpha (opacity settings)]
  ++ match type settings, watermarkLogo with
     | LogoType, Some _ =>
         drawWatermarkLogo watermarkLogo settings canvasWidth canvasHeight
     | LogoType, None => []
     | TextType, _ =>
         if negb (String.eqb (text settings) "")
         then drawWatermarkText measureText settings canvasWidth canvasHeight
         else []
     end
  ++ [SetGlobalAlpha 1].

(** The [drawImage] call of the pending branch of [drawImageWithWatermark]. *)
Definition pendingDest (mainImage : HTMLImageElement) (transform : Transform)
    : Rect :=
  {| rect_x := x transform;
     rect_y := y transform;
     rect_w := image_width mainImage * scale transform;
     rect_h := image_height mainImage * scale transform |}.

(** What [mainImage.onload] draws in [drawImageWithWatermark] once it has
    assigned [canvas.width] and [canvas.height] (lines 93-107); [canvas] is
    the canvas after that assignment. *)
Definition drawImageWithWatermark (measureText : Q -> string -> string -> Q)
    (watermarkLogo : option HTMLImageElement) (settings : WatermarkSettings)
    (mainImage : HTMLImageElement) (canvas : HTMLCanvasElement)
    (transform : Transform) (isPending : bool) : list CanvasOp :=
  [ClearRect {| rect_x := 0; rect_y := 0;
                rect_w := canvas_width canvas; rect_h := canvas_height canvas |}]
  ++ (if isPending
      then [DrawImage mainImage None (pendingDest mainImage transform)]
      else [DrawImage mainImage None
              {| rect_x := 0; rect_y := 0;
                 rect_w := canvas_width canvas;
                 rect_h := canvas_height canvas |}])
  ++ applyWatermark measureText watermarkLogo settings
       (canvas_width canvas) (canvas_height canvas).

End Watermark.

(* ================================================================== *)
(** ** services/geminiService.ts *)

Module Service.

Local Open Scope string_scope.

(** What a [throw] or a rejected promise carries: an [Error] object with its
    message, or any other value. *)
Inductive Thrown : Type :=
| ErrorObject (message : string)
| OtherValue.

(** The part of the response of [ai.models.generateContent] that is read:
    [response.candidates?.[0]?.content?.parts]. *)
Record InlineData : Type := mkInlineData { data : string; dataMimeType : string }.
Record Part : Type := mkPart { inlineData : option InlineData }.
Record Content : Type := mkContent { parts : option (list Part) }.
Record Candidate : Type := mkCandidate { content : option Content }.
Record Response : Type := mkResponse { candidates : option (list Candidate) }.

(** The request the service sends, and the two ways the call can end. *)
Record Request : Type := mkRequest {
  model : string;
  imageData : string;
  imageMimeType : string;
  promptText : string
}.

Inductive Outcome (A : Type) : Type :=
| Resolved (value : A)
| Rejected (reason : Thrown).
Arguments Resolved {A} value.
Arguments Rejected {A} reason.

(** The external generation service. *)
Definition GenerateContent : Type := Request -> Outcome Response.

(** [response.candidates?.[0]?.content?.parts || []] *)
Definition responseParts (response : Response) : list Part :=
  match candidates response with
  | Some (first :: _) =>
      match content first with
      | Some c => match parts c with Some ps => ps | None => [] end
      | None => []
      end
  | _ => []
  end.

(** The [for ... of] loop: the data of the first part that has inline data. *)
Fixpoint firstInlineData (ps : list Part) : option string :=
  match ps with
  | [] => None
  | part :: rest =>
      match inlineData part with
      | Some d => Some (data d)
      | None => firstInlineData rest
      end
  end.

Definition regeneratePrompt (aspectRatioLabel : string) : string :=
  "This image needs to be adjusted to a " ++ aspectRatioLabel
  ++ " aspect ratio. Please intelligently extend the image to fit these new dimensions. The generated areas should seamlessly blend with the original image in terms of style, lighting, and content. Do not crop the original image; instead, add new visual information to the sides or top/bottom as needed.".

(** The [catch] clause of [regenerateImageToAspectRatio]. *)
Definition regenerateCatch (error : Thrown) : Thrown :=
  match error with
  | ErrorObject message =>
      ErrorObject ("Failed to regenerate image: " ++ message)
  | OtherValue =>
      ErrorObject "An unknown error occurred while regenerating the image."
  end.

(** The argument of [ai.models.generateContent] in
    [regenerateImageToAspectRatio]. *)
Definition regenerateRequest (base64Image mimeType aspectRatioLabel : string)
    : Request :=
  let prompt := regeneratePrompt aspectRatioLabel in
  {| model := "gemini-2.5-flash-image";
     imageData := base64Image;
     imageMimeType := mimeType;
     promptText := prompt |}.

(** [regenerateImageToAspectRatio(base64Image, mimeType, aspectRatioLabel)] *)
Definition regenerateImageToAspectRatio (generateContent : GenerateContent)
    (base64Image mimeType aspectRatioLabel : string) : Outcome string :=
  match generateContent
          (regenerateRequest base64Image mimeType aspectRatioLabel) with
  | Resolved response =>
      match firstInlineData (responseParts response) with
      | Some d => Resolved d
      | None =>
          Rejected
            (regenerateCatch
               (ErrorObject
                  "No image data found in the response from regeneration."))
      end
  | Rejected error => Rejected (regenerateCatch error)
  end.

(** The generation call failed: it threw, or its response has no image data. *)
Definition generationFails (o : Outcome Response) : Prop :=
  match o with
  | Rejected _ => True
  | Resolved response => firstInlineData (responseParts response) = None
  end.

End Service.

(* ================================================================== *)
(** ** components/ImageEditor.tsx *)

Module Editor.

Import JsString Canvas Service.
Import Controller.
Local Open Scope string_scope.

Record OriginalImage : Type := mkOriginal { base64 : string; mimeType : string }.

Inductive Operation : Type := EditOp | RemoveOp | VariationOp | RegenerateOp.

(** The [useState] cells of the component and [canvasRef.current]. *)
Record State : Type := mkState {
  originalImage : option OriginalImage;
  displayImage : option string;
  imageDimensions : option Dimensions;
  prompt : string;
  activeOperation : option Operation;
  error : option string;
  aspectRatio : string;
  pendingAspectRatio : option string;
  transform : Transform;
  canvasRef : option HTMLCanvasElement
}.

(** A call of one of the state setters.  A handler reads the cells of the
    render it was created in and queues such calls; React applies them, in
    order, to the state that is current when they are applied. *)
Inductive Update : Type :=
| SetOriginalImage (f : option OriginalImage -> option OriginalImage)
| SetDisplayImage (v : option string)
| SetActiveOperation (v : option Operation)
| SetError (v : option string)
| SetAspectRatio (v : string)
| SetPendingAspectRatio (v : option string)
| SetTransform (v : Transform).

Definition apply_update (u : Update) (st : State) : State :=
  let '(mkState oi di dims pr op er ar par tr cv) := st in
  match u with
  | SetOriginalImage f => mkState (f oi) di dims pr op er ar par tr cv
  | SetDisplayImage v => mkState oi v dims pr op er ar par tr cv
  | SetActiveOperation v => mkState oi di dims pr v er ar par tr cv
  | SetError v => mkState oi di dims pr op v ar par tr cv
  | SetAspectRatio v => mkState oi di dims pr op er v par tr cv
  | SetPendingAspectRatio v => mkState oi di dims pr op er ar v tr cv
  | SetTransform v => mkState oi di dims pr op er ar par v cv
  end.

Definition commit (us : list Update) (st : State) : State :=
  fold_left (fun s u => apply_update u s) us st.

(** An off-screen canvas: the size it holds and what was drawn on it. *)
Record OffscreenCanvas : Type := mkOffscreen {
  off_width : Q;
  off_height : Q;
  off_ops : list CanvasOp
}.

(** What the handlers obtain from the browser and from the service:
    whether decoding a data URL fires [onload] (and with which image),
    whether [getContext('2d')] yields a context, the data URL [toDataURL]
    encodes a canvas to, and the generation service. *)
Record Browser : Type := mkBrowser {
  imageLoads : string -> option HTMLImageElement;
  context2d : bool;
  toDataURL : OffscreenCanvas -> string -> string;
  generateContent : GenerateContent
}.

(** [url.split(',')[1]]; a data URL always has a comma, the empty string
    stands for the [undefined] of a string without one. *)
Definition afterComma (url : string) : string :=
  match split ","%char url with
  | _ :: second :: _ => second
  | _ => ""
  end.

(** The "cover" transform [handleSelectAspectRatio] computes (lines
    124-137), in exact arithmetic; [Binary64.initialCoverTransform] is the
    same code on binary64 values. *)
Definition initialCoverTransform (canvas : HTMLCanvasElement)
    (imageDimensions : Dimensions) : Transform :=
  let canvasRatio := canvas_width canvas / canvas_height canvas in
  let imageRatio := width imageDimensions / height imageDimensions in
  let scale :=
    if Qltb imageRatio canvasRatio
    then canvas_width canvas / width imageDimensions
    else canvas_height canvas / height imageDimensions in
  {| scale := scale;
     x := (canvas_width canvas - width imageDimensions * scale) / 2;
     y := (canvas_height canvas - height imageDimensions * scale) / 2 |}.

(** [handleSelectAspectRatio(ratio)] *)
Definition handleSelectAspectRatio (ratio : string) (st : State) : list Update :=
  if String.eqb ratio (aspectRatio st) then [SetPendingAspectRatio None]
  else
    SetPendingAspectRatio (Some ratio)
    :: match canvasRef st, imageDimensions st with
       | Some canvas, Some dims =>
           [SetTransform (initialCoverTransform canvas dims)]
       | _, _ => []
       end.

(** The source rectangle [sx, sy, sWidth, sHeight] both [handleApplyCrop]
    (lines 150-153) and [handleRegenerate] (lines 188-191) compute. *)
Definition cropRect (canvas : HTMLCanvasElement) (transform : Transform) : Rect :=
  {| rect_x := - x transform / scale transform;
     rect_y := - y transform / scale transform;
     rect_w := canvas_width canvas / scale transform;
     rect_h := canvas_height canvas / scale transform |}.

(** The off-screen canvas both handlers build from the four numbers
    (lines 155-161 and 193-199).  [sWidth] and [sHeight] are assigned to
    its [width] and [height], which store them as whole numbers of pixels;
    the [drawImage] call then draws the rectangle at the origin, pixel for
    pixel, with the sizes as they were computed. *)
Definition cropCanvasOf (mainImage : HTMLImageElement) (r : Rect)
    : OffscreenCanvas :=
  {| off_width := storedSize 300 (rect_w r);
     off_height := storedSize 150 (rect_h r);
     off_ops :=
       [DrawImage mainImage (Some r)
          {| rect_x := 0; rect_y := 0; rect_w := rect_w r; rect_h := rect_h r |}] |}.

Definition cropCanvas (mainImage : HTMLImageElement)
    (canvas : HTMLCanvasElement) (transform : Transform) : OffscreenCanvas :=
  cropCanvasOf mainImage (cropRect canvas transform).

(** [!displayImage || !imageDimensions || !pendingAspectRatio || !canvas] *)
Definition notReady (st : State) : bool :=
  negb (truthy (displayImage st))
  || match imageDimensions st with None => true | Some _ => false end
  || negb (truthy (pendingAspectRatio st))
  || match canvasRef st with None => true | Some _ => false end.

(** [prev => prev ? { ...prev, base64: newBase64 } : null] *)
Definition withBase64 (newBase64 : string) (prev : option OriginalImage)
    : option OriginalImage :=
  match prev with
  | Some o => Some {| base64 := newBase64; mimeType := mimeType o |}
  | None => None
  end.

(** [handleApplyCrop()] *)
Definition handleApplyCrop (browser : Browser) (st : State) : list Update :=
  if notReady st then []
  else
    match displayImage st, pendingAspectRatio st, canvasRef st with
    | Some src, Some pending, Some canvas =>
        match imageLoads browser src with
        | None => []
        | Some mainImage =>
            if negb (context2d browser) then []
            else
              let offscreenCanvas := cropCanvas mainImage canvas (transform st) in
              let mime :=
                match originalImage st with
                | Some o => if String.eqb (mimeType o) "" then "image/png"
                            else mimeType o
                | None => "image/png"
                end in
              let croppedDataUrl := toDataURL browser offscreenCanvas mime in
              let newBase64 := afterComma croppedDataUrl in
              [SetDisplayImage (Some croppedDataUrl);
               SetOriginalImage (withBase64 newBase64);
               SetAspectRatio pending;
               SetPendingAspectRatio None]
        end
    | _, _, _ => []
    end.

(** How far the [try] block of [handleRegenerate] gets before the
    generation call: it never resumes (the image does not load), it throws,
    or it has the cropped image, its MIME type and the ratio label to send. *)
Inductive Prepared : Type :=
| NeverResumes
| Fails (err : Thrown)
| Cropped (croppedBase64 mime label : string).

Definition prepareCrop (browser : Browser) (st : State)
    (original : OriginalImage) : Prepared :=
  if notReady st then Fails (ErrorObject "Canvas or image not ready.")
  else
    match displayImage st, pendingAspectRatio st, canvasRef st with
    | Some src, Some pending, Some canvas =>
        match imageLoads browser src with
        | None => NeverResumes
        | Some mainImage =>
            if negb (context2d browser)
            then Fails (ErrorObject "Could not create offscreen context.")
            else
              let offscreenCanvas := cropCanvas mainImage canvas (transform st) in
              let croppedDataUrl :=
                toDataURL browser offscreenCanvas (mimeType original) in
              Cropped (afterComma croppedDataUrl) (mimeType original) pending
        end
    | _, _, _ => Fails (ErrorObject "Canvas or image not ready.")
    end.

(** The [catch] and [finally] clauses of [handleRegenerate]. *)
Definition regenerateCaught (err : Thrown) : list Update :=
  [SetError (Some match err with
                  | ErrorObject message => message
                  | OtherValue =>
                      "An unknown error occurred during regeneration."
                  end)].

Definition regenerateFinally : list Update :=
  [SetActiveOperation None; SetPendingAspectRatio None].

(** [handleRegenerate()] *)
Definition handleRegenerate (browser : Browser) (st : State) : list Update :=
  match originalImage st with
  | None => []
  | Some original =>
      if negb (truthy (pendingAspectRatio st)) then []
      else
        [SetActiveOperation (Some RegenerateOp); SetError None]
        ++ match prepareCrop browser st original with
           | NeverResumes => []
           | Fails err => regenerateCaught err ++ regenerateFinally
           | Cropped croppedBase64 mime label =>
               match regenerateImageToAspectRatio (generateContent browser)
                       croppedBase64 mime label with
               | Rejected err => regenerateCaught err ++ regenerateFinally
               | Resolved newBase64 =>
                   let newDataUrl := "data:" ++ mime ++ ";base64," ++ newBase64 in
                   [SetDisplayImage (Some newDataUrl);
                    SetOriginalImage (withBase64 newBase64);
                    SetAspectRatio label]
                   ++ regenerateFinally
               end
           end
  end.

End Editor.

(* ================================================================== *)
(** ** Statements of the specification and sample inputs *)

Module Spec.

Import JsString Canvas Service.
Import Controller.
Local Open Scope string_scope.

(** [seedCoverTransform(canvasSize, imageSize)] as the specification words
    it: [{scale: coverScale(...), x: (canvasW - scale*imgW)/2,
    y: (canvasH - scale*imgH)/2}]. *)
Definition seedCoverTransform (c : HTMLCanvasElement) (d : Dimensions)
    : Transform :=
  let s := coverScale c d in
  {| scale := s;
     x := (canvas_width c - s * width d) / 2;
     y := (canvas_height c - s * height d) / 2 |}.

(** [anchorOffset(axisSize, contentSize, anchor, margin = 20)] as the
    specification words it, per axis: the horizontal and the vertical
    component of an anchor. *)
Inductive AxisAnchor : Type := Near | Far | Middle.

Definition horizontal (p : Watermark.WatermarkPosition) : AxisAnchor :=
  match p with
  | Watermark.TopLeft | Watermark.BottomLeft => Near
  | Watermark.TopRight | Watermark.BottomRight => Far
  | Watermark.Center => Middle
  end.

Definition vertical (p : Watermark.WatermarkPosition) : AxisAnchor :=
  match p with
  | Watermark.TopLeft | Watermark.TopRight => Near
  | Watermark.BottomLeft | Watermark.BottomRight => Far
  | Watermark.Center => Middle
  end.

Definition anchorOffset (axisSize contentSize : Q) (a : AxisAnchor) : Q :=
  match a with
  | Near => 20
  | Far => axisSize - contentSize - 20
  | Middle => (axisSize - contentSize) / 2
  end.

(** "The image is not yet loaded": no display image, or its dimensions are
    not known yet. *)
Definition notLoaded (st : Editor.State) : Prop :=
  truthy (Editor.displayImage st) = false \/ Editor.imageDimensions st = None.

(** The [InvalidState] policy of the specification for crop extraction, at
    one state: with [scale <= 0] or the image not loaded, an error is
    reported, nothing is extracted and the image and transform state stays
    as it was. *)
Definition invalidStatePolicy (browser : Editor.Browser) (st : Editor.State)
    : Prop :=
  scale (Editor.transform st) <= 0 \/ notLoaded st ->
  let st' := Editor.commit (Editor.handleApplyCrop browser st) st in
  Editor.error st' <> None /\
  Editor.displayImage st' = Editor.displayImage st /\
  Editor.originalImage st' = Editor.originalImage st /\
  Editor.aspectRatio st' = Editor.aspectRatio st /\
  Editor.transform st' = Editor.transform st.

(** The buffer an off-screen canvas holds, as an image of the canvas's
    size, and "rendering it at 1:1 into a canvas of its own size". *)
Definition bufferImage (oc : Editor.OffscreenCanvas) (url : string)
    : HTMLImageElement :=
  {| image_src := url;
     image_width := Editor.off_width oc;
     image_height := Editor.off_height oc |}.

Definition drawOneToOne (buffer : HTMLImageElement) : CanvasOp :=
  DrawImage buffer None
    {| rect_x := 0; rect_y := 0;
       rect_w := image_width buffer; rect_h := image_height buffer |}.

(** Where a [drawImage] call puts the image point [p]. *)
Definition shownAt (op : CanvasOp) (p : Q * Q) : Q * Q :=
  match op with
  | DrawImage image source dest => place (sourceRect image source) dest p
  | _ => p
  end.

(** The round trip of the specification, for one image, frame and
    transform: a point of the source image is visible in the frame, where
    the compositor shows it under the transform, exactly when it is visible
    in the extracted buffer rendered at 1:1 into a canvas of the buffer's
    size. *)
Definition cropRoundTrip (mainImage : HTMLImageElement)
    (canvas : HTMLCanvasElement) (t : Transform) : Prop :=
  let crop := Editor.cropCanvas mainImage canvas t in
  let r := Editor.cropRect canvas t in
  forall (url : string) (p : Q * Q),
    on_surface (image_width mainImage) (image_height mainImage) p ->
    on_surface (canvas_width canvas) (canvas_height canvas)
      (shownAt
         (DrawImage mainImage None (Watermark.pendingDest mainImage t)) p)
    <->
    on_surface (Editor.off_width crop) (Editor.off_height crop)
      (shownAt (drawOneToOne (bufferImage crop url))
         (shownAt
            (DrawImage mainImage (Some r)
               {| rect_x := 0; rect_y := 0;
                  rect_w := rect_w r; rect_h := rect_h r |}) p)).

End Spec.

Module Samples.

Import Canvas Service.
Import Controller.
Local Open Scope string_scope.

(** A 200x100 image in a 400x400 frame.  This is where the editor stands
    after a 200x100 image shown in its original ratio in a 400x400 container
    (canvas 400x200) is switched to 1:1: the transform was seeded on the
    400x200 canvas, the frame is then resized to 400x400. *)
Definition wideImage : Dimensions := {| width := 200; height := 100 |}.
Definition originalFrame : HTMLCanvasElement :=
  {| canvas_width := 400; canvas_height := 200 |}.
Definition squareFrame : HTMLCanvasElement :=
  {| canvas_width := 400; canvas_height := 400 |}.
Definition staleSeed : Transform := {| scale := 2; x := 0; y := 0 |}.

(** A 1000x1000 image in a 500x400 frame, covered with room to spare. *)
Definition bigImage : Dimensions := {| width := 1000; height := 1000 |}.
Definition frame : HTMLCanvasElement :=
  {| canvas_width := 500; canvas_height := 400 |}.
Definition covering : Transform := {| scale := 1; x := -100; y := -200 |}.

(** The same frame zoomed in to 1.3: the crop rectangle is 384.6... by
    307.6... image pixels.  The image point [edgePoint] is shown 0.15 frame
    pixels from the right edge of the frame. *)
Definition zoomed : Transform := {| scale := 13 # 10; x := -100; y := -200 |}.
Definition edgePoint : Q * Q := ((1000 # 13) + (769 # 2), (2000 # 13) + 10).
Definition zoomOutNotch : WheelEvent :=
  {| wheelOffsetX := 250; wheelOffsetY := 200; deltaY := 100 |}.
Definition shrunk : Transform := {| scale := 1 # 4; x := -30; y := 7 |}.

(** A logo image and a photo. *)
Definition logo : HTMLImageElement :=
  {| image_src := "data:image/png;base64,TE9HTw==";
     image_width := 300; image_height := 100 |}.
Definition photoUrl : string := "data:image/png;base64,UEhPVE8=".
Definition photo : HTMLImageElement :=
  {| image_src := photoUrl; image_width := 1000; image_height := 1000 |}.

(** A browser that decodes every image as [photo], provides a context and
    encodes every canvas to the same data URL, with a generation service
    that is out of quota. *)
Definition quotaExceeded : GenerateContent :=
  fun _ => Rejected (ErrorObject "quota exceeded").
Definition browser : Editor.Browser :=
  {| Editor.imageLoads := fun _ => Some photo;
     Editor.context2d := true;
     Editor.toDataURL := fun _ _ => "data:image/png;base64,Q1JPUA==";
     Editor.generateContent := quotaExceeded |}.

(** The editor with [photo] loaded, the ratio 1:1 pending and the given
    transform. *)
Definition loadedEditor (t : Transform) : Editor.State :=
  {| Editor.originalImage :=
       Some {| Editor.base64 := "UEhPVE8="; Editor.mimeType := "image/png" |};
     Editor.displayImage := Some photoUrl;
     Editor.imageDimensions := Some bigImage;
     Editor.prompt := "";
     Editor.activeOperation := None;
     Editor.error := None;
     Editor.aspectRatio := "original";
     Editor.pendingAspectRatio := Some "1:1";
     Editor.transform := t;
     Editor.canvasRef := Some frame |}.

End Samples.

(* ================================================================== *)
(** ** hooks/useWatermark.ts : sizing the canvas, and what a frame paints *)

Module Sizing.

Import JsNum Geometry Canvas.
Import Controller.

(** The two branches of [drawImageWithWatermark] that size the canvas
    (lines 69-88) run the same computation, once on the target ratio and
    once on the image's own ratio: the largest rectangle of that ratio
    inside the container. *)
Definition fitted (containerWidth containerHeight ratio : Q)
    : HTMLCanvasElement :=
  let containerRatio := containerWidth / containerHeight in
  if Qltb ratio containerRatio then
    let canvasHeight := containerHeight in
    {| canvas_width := canvasHeight * ratio; canvas_height := canvasHeight |}
  else
    let canvasWidth := containerWidth in
    {| canvas_width := canvasWidth; canvas_height := canvasWidth / ratio |}.

(** The values [canvasWidth] and [canvasHeight] that
    [drawImageWithWatermark] computes (lines 55-88) for an image in a
    container, as they are before they are assigned to the canvas, which
    stores them as whole pixels ([storedCanvas] below).  A target ratio of
    [+Infinity] is above every container ratio and divides the width to 0;
    [-Infinity] makes the width infinite, for which the result is [None]. *)
Definition canvasSize (mainImage : HTMLImageElement)
    (containerWidth containerHeight : Q) (aspectRatio : string)
    : option HTMLCanvasElement :=
  let imageWidth := image_width mainImage in
  let imageHeight := image_height mainImage in
  let targetRatio := parseAspectRatio aspectRatio in
  if truthy_ratio targetRatio then
    match targetRatio with
    | Some (Fin r) => Some (fitted containerWidth containerHeight r)
    | Some (Infinity false) =>
        let canvasWidth := containerWidth in
        Some {| canvas_width := canvasWidth; canvas_height := 0 |}
    | _ => None
    end
  else
    let imageRatio := imageWidth / imageHeight in
    Some (fitted containerWidth containerHeight imageRatio).

(** [canvas.width = canvasWidth; canvas.height = canvasHeight] (lines
    90-91): the canvas as it is read back. *)
Definition storedCanvas (computed : HTMLCanvasElement) : HTMLCanvasElement :=
  {| canvas_width := storedSize 300 (canvas_width computed);
     canvas_height := storedSize 150 (canvas_height computed) |}.

(** The canvas as [drawImageWithWatermark] leaves it.  An infinite width
    (the target ratio [-Infinity]) is stored as 0, next to the container's
    height. *)
Definition resizedCanvas (mainImage : HTMLImageElement)
    (containerWidth containerHeight : Q) (aspectRatio : string)
    : HTMLCanvasElement :=
  match canvasSize mainImage containerWidth containerHeight aspectRatio with
  | Some computed => storedCanvas computed
  | None =>
      {| canvas_width := 0;
         canvas_height := storedSize 150 containerHeight |}
  end.

(** Running a list of context calls: each call that paints ([drawImage],
    [fillText]) with the [globalAlpha] in force when it runs, and the
    [globalAlpha] left at the end. *)
Fixpoint painted (alpha : Q) (ops : list CanvasOp)
    : list (CanvasOp * Q) * Q :=
  match ops with
  | [] => ([], alpha)
  | SetGlobalAlpha a :: rest => painted a rest
  | (DrawImage _ _ _ as op) :: rest
  | (FillText _ _ _ as op) :: rest =>
      let '(ps, final) := painted alpha rest in ((op, alpha) :: ps, final)
  | _ :: rest => painted alpha rest
  end.

(** The rectangle a [drawImage] call covers on the surface. *)
Definition inside (r : Rect) (canvasWidth canvasHeight : Q) : Prop :=
  (0 <= rect_x r /\ rect_x r + rect_w r <= canvasWidth) /\
  (0 <= rect_y r /\ rect_y r + rect_h r <= canvasHeight).

End Sizing.

(* ================================================================== *)
(** ** components/Settings.tsx : the handlers that rewrite the settings *)

Module SettingsPanel.

Import Watermark.
Local Open Scope string_scope.

(** [handleClearWatermark], the updater it passes to [setLocalSettings]. *)
Definition handleClearWatermark (prev : WatermarkSettings) : WatermarkSettings :=
  {| type := TextType;
     text := "";
     logo := None;
     position := position prev;
     opacity := opacity prev;
     fontSize := fontSize prev;
     color := color prev;
     fontFamily := fontFamily prev |}.

(** The two buttons that switch the watermark type,
    [s => ({...s, type: 'text'})] and [s => ({...s, type: 'logo'})]. *)
Definition selectType (t : WatermarkType) (s : WatermarkSettings)
    : WatermarkSettings :=
  {| type := t;
     text := text s;
     logo := logo s;
     position := position s;
     opacity := opacity s;
     fontSize := fontSize s;
     color := color s;
     fontFamily := fontFamily s |}.

End SettingsPanel.

(* ================================================================== *)
(** ** services/geminiService.ts : editing *)

Module ServiceEdit.

Import Service.
Local Open Scope string_scope.

(** The argument of [ai.models.generateContent] in [editImageWithGemini]. *)
Definition editRequest (base64Image mimeType prompt : string) : Request :=
  {| model := "gemini-2.5-flash-image";
     imageData := base64Image;
     imageMimeType := mimeType;
     promptText := prompt |}.

(** The [catch] clause of [editImageWithGemini]. *)
Definition editCatch (error : Thrown) : Thrown :=
  match error with
  | ErrorObject message => ErrorObject ("Failed to edit image: " ++ message)
  | OtherValue =>
      ErrorObject "An unknown error occurred while editing the image."
  end.

(** [editImageWithGemini(base64Image, mimeType, prompt)] *)
Definition editImageWithGemini (generateContent : GenerateContent)
    (base64Image mimeType prompt : string) : Outcome string :=
  match generateContent (editRequest base64Image mimeType prompt) with
  | Resolved response =>
      match firstInlineData (responseParts response) with
      | Some d => Resolved d
      | None =>
          Rejected
            (editCatch (ErrorObject "No image data found in the response."))
      end
  | Rejected error => Rejected (editCatch error)
  end.

End ServiceEdit.

(* ================================================================== *)
(** ** components/ImageEditor.tsx : upload, edit and the session *)

Module EditorActions.

Import JsString Canvas Service ServiceEdit.
Import Controller.
Import Editor.
Local Open Scope string_scope.

(** What [handleImageUpload] reads of the chosen file: its MIME type, and
    the data URL [FileReader.readAsDataURL] delivers, if it delivers one. *)
Record UploadedFile : Type := mkFile {
  fileType : string;
  readResult : option string
}.

(** [handleImageUpload(e)], for [e.target.files?.[0]]. *)
Definition handleImageUpload (file : option UploadedFile) : list Update :=
  match file with
  | None => []
  | Some f =>
      SetError None
      :: match readResult f with
         | Some dataUrl =>
             let base64 := afterComma dataUrl in
             let mimeType := fileType f in
             [SetOriginalImage
                (fun _ => Some {| base64 := base64; mimeType := mimeType |});
              SetDisplayImage (Some dataUrl);
              SetAspectRatio "original";
              SetPendingAspectRatio None]
         | None => [SetError (Some "Failed to read the file.")]
         end
  end.

(** [performEdit(editPrompt, operation)] *)
Definition performEdit (browser : Browser) (editPrompt : string)
    (operation : Operation) (st : State) : list Update :=
  match originalImage st with
  | None => [SetError (Some "Please upload an image first.")]
  | Some original =>
      [SetActiveOperation (Some operation); SetError None]
      ++ match editImageWithGemini (generateContent browser)
                 (base64 original) (mimeType original) editPrompt with
         | Resolved editedBase64 =>
             let newDataUrl :=
               "data:" ++ mimeType original ++ ";base64," ++ editedBase64 in
             [SetDisplayImage (Some newDataUrl);
              SetOriginalImage (withBase64 editedBase64)]
         | Rejected err =>
             [SetError (Some match err with
                             | ErrorObject message => message
                             | OtherValue => "An unknown error occurred."
                             end)]
         end
      ++ [SetActiveOperation None]
  end.

(** [handleEditImage()] *)
Definition handleEditImage (browser : Browser) (st : State) : list Update :=
  if String.eqb (prompt st) "" then [SetError (Some "Please enter a prompt.")]
  else performEdit browser (prompt st) EditOp st.

(** [handleGenerateVariation()] and [handleRemoveWatermark()] *)
Definition handleGenerateVariation (browser : Browser) (st : State)
    : list Update :=
  performEdit browser
    "Generate a creative variation of this image. Maintain the core subject and composition, but explore different artistic styles, lighting, or details."
    VariationOp st.

Definition handleRemoveWatermark (browser : Browser) (st : State)
    : list Update :=
  performEdit browser
    "Remove any watermarks, logos, or text overlays from this image. Ensure the restoration of the area behind the watermark is seamless and matches the surrounding image."
    RemoveOp st.

(** The Cancel button: [() => setPendingAspectRatio(null)]. *)
Definition handleCancel : list Update := [SetPendingAspectRatio None].

(** The effect on [displayImage] (lines 55-65): without an image the
    dimensions are forgotten; with one they are set once it is decoded, and
    stay as they were if it never is. *)
Definition decodeEffect (browser : Browser) (st : State) : State :=
  let '(mkState oi di dims pr op er ar par tr cv) := st in
  if negb (truthy di) then mkState oi di None pr op er ar par tr cv
  else
    match di with
    | Some src =>
        match imageLoads browser src with
        | Some img =>
            mkState oi di
              (Some {| width := image_width img; height := image_height img |})
              pr op er ar par tr cv
        | None => st
        end
    | None => st
    end.

(** The redraw of [useWatermark] as far as the state sees it: once the
    image on display is decoded, the canvas is resized for the pending ratio
    or else the committed one, in a container of the given size. *)
Definition redrawEffect (browser : Browser)
    (containerWidth containerHeight : Q) (st : State) : State :=
  let '(mkState oi di dims pr op er ar par tr cv) := st in
  match cv, di with
  | Some _, Some src =>
      if negb (truthy di) then st
      else
        match imageLoads browser src with
        | Some mainImage =>
            let aspectRatio :=
              match par with
              | Some pending => if String.eqb pending "" then ar else pending
              | None => ar
              end in
            mkState oi di dims pr op er ar par tr
              (Some (Sizing.resizedCanvas mainImage
                       containerWidth containerHeight aspectRatio))
        | None => st
        end
  | _, _ => st
  end.

(** What can happen in the editor: the user's actions, and the two effects
    that follow a render when the browser gets to them. *)
Inductive Action : Type :=
| Upload (file : option UploadedFile)
| EditImage
| GenerateVariation
| RemoveWatermark
| SelectAspectRatio (ratio : string)
| ApplyCrop
| Regenerate
| Cancel
| ImageDecoded
| Redrawn (containerWidth containerHeight : Q).

(** The setter calls an action queues. *)
Definition handler (browser : Browser) (a : Action) (st : State)
    : list Update :=
  match a with
  | Upload file => handleImageUpload file
  | EditImage => handleEditImage browser st
  | GenerateVariation => handleGenerateVariation browser st
  | RemoveWatermark => handleRemoveWatermark browser st
  | SelectAspectRatio ratio => handleSelectAspectRatio ratio st
  | ApplyCrop => handleApplyCrop browser st
  | Regenerate => handleRegenerate browser st
  | Cancel => handleCancel
  | ImageDecoded | Redrawn _ _ => []
  end.

(** The state an action leaves. *)
Definition perform (browser : Browser) (a : Action) (st : State) : State :=
  match a with
  | ImageDecoded => decodeEffect browser st
  | Redrawn containerWidth containerHeight =>
      redrawEffect browser containerWidth containerHeight st
  | _ => commit (handler browser a st) st
  end.

Fixpoint session (browser : Browser) (actions : list Action) (st : State)
    : State :=
  match actions with
  | [] => st
  | a :: rest => session browser rest (perform browser a st)
  end.

(** The state of the component before anything is uploaded (the initial
    values of its [useState] cells). *)
Definition initialState (canvas : option HTMLCanvasElement) : State :=
  {| originalImage := None;
     displayImage := None;
     imageDimensions := None;
     prompt := "";
     activeOperation := None;
     error := None;
     aspectRatio := "original";
     pendingAspectRatio := None;
     transform := {| scale := 1; x := 0; y := 0 |};
     canvasRef := canvas |}.

(** The setter calls that write the image cells, and those that write the
    aspect-ratio selection and the transform. *)
Definition touchesImage (u : Update) : bool :=
  match u with
  | SetOriginalImage _ | SetDisplayImage _ => true
  | _ => false
  end.

Definition touchesSelection (u : Update) : bool :=
  match u with
  | SetAspectRatio _ | SetPendingAspectRatio _ | SetTransform _ => true
  | _ => false
  end.

(** A string has no comma. *)
Definition commaFree (s : string) : Prop :=
  includes s "," = false.

(** The copy of the image kept for the service is the payload of the data
    URL on display, and both are present or both absent. *)
Definition inSync (st : State) : Prop :=
  match originalImage st, displayImage st with
  | None, None => True
  | Some original, Some url =>
      afterComma url = base64 original /\ commaFree (mimeType original)
  | _, _ => False
  end.

(** The service only ever returns image data without a comma (base64). *)
Definition base64Service (generateContent : GenerateContent) : Prop :=
  forall request response d,
    generateContent request = Resolved response ->
    firstInlineData (responseParts response) = Some d ->
    commaFree d.

(** Every file an upload delivers has a MIME type without a comma. *)
Definition plainUploads (actions : list Action) : Prop :=
  forall f, In (Upload (Some f)) actions -> commaFree (fileType f).

End EditorActions.

(* ================================================================== *)
(** ** More of the controller, and more sample inputs *)

Module Zoom.

Import Controller.

(** The transform [handleWheel] aims at, [newTransform], before it is
    clamped: [Controller.wheelCandidate] is its clamping.  The arithmetic
    is exact; in binary64 the new position is the same up to rounding. *)
Definition wheelTarget (e : WheelEvent) (prevTransform : Transform) : Transform :=
  let scaleAmount := deltaY e * - (1 # 1000) in
  let newScale := Qmax (1 # 10) (scale prevTransform + scaleAmount) in
  let mouseX := wheelOffsetX e in
  let mouseY := wheelOffsetY e in
  let imagePointX := (mouseX - x prevTransform) / scale prevTransform in
  let imagePointY := (mouseY - y prevTransform) / scale prevTransform in
  let newX := mouseX - imagePointX * newScale in
  let newY := mouseY - imagePointY * newScale in
  {| scale := newScale; x := newX; y := newY |}.

(** The transform [handleMouseMove] aims at before it is clamped. *)
Definition dragTarget (dx dy : Q) (prevTransform : Transform) : Transform :=
  {| scale := scale prevTransform;
     x := x prevTransform + dx;
     y := y prevTransform + dy |}.

(** Events that can start a drag or zoom. *)
Definition pressesOrZooms (ev : Event) : bool :=
  match ev with
  | MouseDown _ | Wheel _ => true
  | _ => false
  end.

Definition zooms (ev : Event) : bool :=
  match ev with
  | Wheel _ => true
  | _ => false
  end.

End Zoom.

Module MoreSamples.

Import Canvas Service.
Import Controller.
Local Open Scope string_scope.

Definition idle : HookState :=
  {| transform := Samples.covering;
     isDragging := false;
     lastMousePosition := {| offsetX := 0; offsetY := 0 |} |}.

Definition hover : list Event :=
  [MouseMove {| offsetX := 10; offsetY := 10 |};
   MouseUp;
   MouseMove {| offsetX := 90; offsetY := 40 |};
   MouseLeave].

Definition dragging : list Event :=
  [MouseDown {| offsetX := 10; offsetY := 10 |};
   MouseMove {| offsetX := 60; offsetY := 10 |};
   MouseUp].

Definition zoomInHere : WheelEvent :=
  {| wheelOffsetX := 250; wheelOffsetY := 200; deltaY := -100 |}.

(** A drag followed by two zooms. *)
Definition gestures : list Event :=
  [MouseDown {| offsetX := 10; offsetY := 10 |};
   MouseMove {| offsetX := 60; offsetY := 30 |};
   MouseUp;
   Wheel zoomInHere;
   Wheel Samples.zoomOutNotch].

(** An 8000x8000 image in the 500x400 frame: covered at scale 1/16. *)
Definition hugeImage : Dimensions := {| width := 8000; height := 8000 |}.
Definition tiny : Transform := {| scale := 1 # 16; x := 0; y := 0 |}.

End MoreSamples.

Module SessionSamples.

Import Canvas Service.
Import Controller.
Local Open Scope string_scope.

(** A 200x100 image. *)
Definition wide : HTMLImageElement :=
  {| image_src := "data:image/png;base64,V0lERQ==";
     image_width := 200; image_height := 100 |}.

(** A browser whose service answers every request with a text part and
    then an image, and a session that uploads, edits, selects a ratio,
    crops, selects again and regenerates. *)
Definition painter : GenerateContent :=
  fun _ =>
    Resolved
      {| candidates :=
           Some [ {| content :=
                       Some {| parts :=
                                 Some [ {| inlineData := None |};
                                        {| inlineData :=
                                             Some {| data := "TkVX";
                                                     dataMimeType := "image/png" |} |} ] |} |} ] |}.

Definition studio : Editor.Browser :=
  {| Editor.imageLoads := fun _ => Some wide;
     Editor.context2d := true;
     Editor.toDataURL := fun _ _ => "data:image/png;base64,Q1JPUA==";
     Editor.generateContent := painter |}.

(** The editor after an upload and a click on 16:9 that comes before the
    image is decoded (or after a file that the browser cannot decode): an
    image and a pending ratio, but no dimensions. *)
Definition undecoded : Editor.State :=
  EditorActions.session studio
    [EditorActions.Upload
       (Some {| EditorActions.fileType := "image/png";
                EditorActions.readResult :=
                  Some "data:image/png;base64,V0lERQ==" |});
     EditorActions.SelectAspectRatio "16:9"]
    (EditorActions.initialState None).

Definition afternoon : list EditorActions.Action :=
  [EditorActions.Upload
     (Some {| EditorActions.fileType := "image/png";
              EditorActions.readResult := Some "data:image/png;base64,V0lERQ==" |});
   EditorActions.ImageDecoded;
   EditorActions.Redrawn 400 400;
   EditorActions.GenerateVariation;
   EditorActions.SelectAspectRatio "1:1";
   EditorActions.Redrawn 400 400;
   EditorActions.ApplyCrop;
   EditorActions.ImageDecoded;
   EditorActions.SelectAspectRatio "16:9";
   EditorActions.Regenerate].

End SessionSamples.

(* ================================================================== *)
(** ** Decimal numerals *)

Module Decimal.

Import JsNum.
Local Open Scope string_scope.

(** A non-empty string of decimal digits, and the number it writes. *)
Definition isDecimalDigit (c : ascii) : bool :=
  match digitValue 10 c with Some _ => true | None => false end.

Fixpoint allDecimal (s : string) : bool :=
  match s with
  | EmptyString => true
  | String c rest => isDecimalDigit c && allDecimal rest
  end.

Definition isNumeral (s : string) : bool :=
  negb (String.eqb s "") && allDecimal s.

Definition numeralValue (s : string) : Z :=
  digitsValue 10 (fst (takeDigits 10 s)).

(** What [parseAspectRatio] makes of the two numbers it has converted. *)
Definition ratioOf (w h : number) : option number :=
  if (isNaN w || isNaN h || is_zero h)%bool then None else Some (div w h).

End Decimal.

(* ================================================================== *)
(** ** The seed, the clamp and the canvas size in binary64 *)

(** The arithmetic of [clampPosition], of the seed of
    [handleSelectAspectRatio] and of the sizing of the canvas as the
    program runs it: every [number] an IEEE-754 binary64 value, every
    operation rounded to nearest. *)
Module Binary64.

Import PrimFloat FloatOps SpecFloat.
Local Open Scope float_scope.

Record Transform : Type := mkTransform { scale : float; x : float; y : float }.
Record Dimensions : Type := mkDimensions { width : float; height : float }.
Record HTMLCanvasElement : Type :=
  mkCanvas { canvas_width : float; canvas_height : float }.

(** [Math.max(a, b)] and [Math.min(a, b)]: [NaN] when an argument is, and
    [+0] above [-0]. *)
Definition Math_max (a b : float) : float :=
  if is_nan a || is_nan b then nan
  else if a <? b then b
  else if b <? a then a
  else if get_sign a then b else a.

Definition Math_min (a b : float) : float :=
  if is_nan a || is_nan b then nan
  else if a <? b then a
  else if b <? a then b
  else if get_sign a then a else b.

(** [clampPosition] (useImageTransform.ts, lines 24-34) *)
Definition clampPosition (newTransform : Transform)
    (canvas : HTMLCanvasElement) (imgDim : Dimensions) : Transform :=
  let scaledWidth := width imgDim * scale newTransform in
  let scaledHeight := height imgDim * scale newTransform in
  let clampedX :=
    Math_min 0
      (Math_max (x newTransform) (canvas_width canvas - scaledWidth)) in
  let clampedY :=
    Math_min 0
      (Math_max (y newTransform) (canvas_height canvas - scaledHeight)) in
  {| scale := scale newTransform; x := clampedX; y := clampedY |}.

(** The "cover" transform of [handleSelectAspectRatio] (ImageEditor.tsx,
    lines 124-137). *)
Definition initialCoverTransform (canvas : HTMLCanvasElement)
    (imageDimensions : Dimensions) : Transform :=
  let canvasRatio := canvas_width canvas / canvas_height canvas in
  let imageRatio := width imageDimensions / height imageDimensions in
  let scale :=
    if imageRatio <? canvasRatio
    then canvas_width canvas / width imageDimensions
    else canvas_height canvas / height imageDimensions in
  {| scale := scale;
     x := (canvas_width canvas - width imageDimensions * scale) / 2;
     y := (canvas_height canvas - height imageDimensions * scale) / 2 |}.

(** A number truncated towards zero; [NaN] and the infinities count as 0
    (the first steps of the conversion to [unsigned long]). *)
Definition truncated (v : float) : Z :=
  match Prim2SF v with
  | S754_finite negative m e =>
      let magnitude :=
        if (0 <=? e)%Z then Z.shiftl (Zpos m) e else Z.shiftr (Zpos m) (- e) in
      if negative then (- magnitude)%Z else magnitude
  | _ => 0%Z
  end.

(** What [canvas.width = v] stores (see [Canvas.storedSize]). *)
Definition storedSize (default : Z) (v : float) : float :=
  let n := (truncated v mod 4294967296)%Z in
  of_uint63 (Uint63.of_Z (if (n <=? 2147483647)%Z then n else default)).

(** [if (targetRatio)] on [number | null] *)
Definition truthy_ratio (targetRatio : option float) : bool :=
  match targetRatio with
  | Some r => negb (is_nan r || is_zero r)
  | None => false
  end.

(** Both branches of the sizing (useWatermark.ts, lines 69-88) fit a ratio
    into the container. *)
Definition fitted (containerWidth containerHeight ratio : float)
    : float * float :=
  let containerRatio := containerWidth / containerHeight in
  if ratio <? containerRatio then
    let canvasHeight := containerHeight in
    (canvasHeight * ratio, canvasHeight)
  else
    let canvasWidth := containerWidth in
    (canvasWidth, canvasWidth / ratio).

(** The canvas as [drawImageWithWatermark] leaves it (useWatermark.ts,
    lines 55-91), [targetRatio] being what [parseAspectRatio] returned. *)
Definition canvasSize (imageWidth imageHeight : float)
    (containerWidth containerHeight : float) (targetRatio : option float)
    : HTMLCanvasElement :=
  let '(canvasWidth, canvasHeight) :=
    match targetRatio with
    | Some ratio =>
        if truthy_ratio targetRatio
        then fitted containerWidth containerHeight ratio
        else fitted containerWidth containerHeight (imageWidth / imageHeight)
    | None => fitted containerWidth containerHeight (imageWidth / imageHeight)
    end in
  {| canvas_width := storedSize 300 canvasWidth;
     canvas_height := storedSize 150 canvasHeight |}.

(** A 1000x700 image shown in its original proportions in a container of
    700x500: what the editor holds when the user first picks a ratio. *)
Definition postcard : Dimensions := {| width := 1000; height := 700 |}.
Definition postcardCanvas : HTMLCanvasElement :=
  canvasSize 1000 700 700 500 None.

(** The four numbers [sx], [sy], [sWidth], [sHeight] of [handleApplyCrop]
    and [handleRegenerate] (ImageEditor.tsx, lines 150-153 and 188-191),
    and the destination of the compositor's [drawImage] while a ratio is
    pending (useWatermark.ts, lines 96-102). *)
Record Rect : Type :=
  mkRect { rect_x : float; rect_y : float; rect_w : float; rect_h : float }.

Definition cropRect (canvas : HTMLCanvasElement) (transform : Transform)
    : Rect :=
  {| rect_x := (- x transform) / scale transform;
     rect_y := (- y transform) / scale transform;
     rect_w := canvas_width canvas / scale transform;
     rect_h := canvas_height canvas / scale transform |}.

Definition pendingDest (imageWidth imageHeight : float)
    (transform : Transform) : Rect :=
  {| rect_x := x transform;
     rect_y := y transform;
     rect_w := imageWidth * scale transform;
     rect_h := imageHeight * scale transform |}.

(** The rational a finite binary64 value is (0 stands in for [NaN] and the
    infinities, which the samples below do not meet). *)
Definition toQ (v : float) : Q :=
  match Prim2SF v with
  | S754_finite negative m e =>
      (inject_Z (if negative then Zneg m else Zpos m) * Qpower 2 e)%Q
  | _ => 0%Q
  end.

Definition exactTransform (t : Transform) : Controller.Transform :=
  {| Controller.scale := toQ (scale t);
     Controller.x := toQ (x t);
     Controller.y := toQ (y t) |}.

Definition exactRect (r : Rect) : Canvas.Rect :=
  {| Canvas.rect_x := toQ (rect_x r);
     Canvas.rect_y := toQ (rect_y r);
     Canvas.rect_w := toQ (rect_w r);
     Canvas.rect_h := toQ (rect_h r) |}.

(** A frame of 550x400 one wheel notch in: the scale is what the literal
    [1.1] denotes, the binary64 value [0x1.199999999999ap+0], and
    [550 / scale] comes out as 499.99999999999994. *)
Definition oneNotch : Transform :=
  {| scale := 0x1.199999999999ap+0; x := -100; y := -200 |}.
Definition wideFrame : HTMLCanvasElement :=
  {| canvas_width := 550; canvas_height := 400 |}.
Definition oneNotchRect : Rect := cropRect wideFrame oneNotch.
Definition oneNotchDest : Rect := pendingDest 1000 1000 oneNotch.

End Binary64.

(* ================================================================== *)
(** * Properties *)

(** ** Rational arithmetic used below *)

Module QFacts.

Import Controller.

Lemma Qltb_true (a b : Q) : Qltb a b = true <-> a < b.
Proof.
  unfold Qltb. rewrite negb_true_iff. split.
  - intros H. apply Qnot_le_lt. intros Hle.
    apply Qle_bool_iff in Hle. congruence.
  - intros H. destruct (Qle_bool b a) eqn:E; [|reflexivity].
    apply Qle_bool_iff in E. exfalso. apply (Qlt_not_le _ _ H E).
Qed.

Lemma Qltb_false (a b : Q) : Qltb a b = false <-> b <= a.
Proof.
  unfold Qltb. rewrite negb_false_iff. apply Qle_bool_iff.
Qed.

(** [Math.min(0, Math.max(v, lo))] stays in [[lo, 0]] as soon as [lo <= 0], *)
Lemma clamp_range (v lo : Q) :
  lo <= 0 -> lo <= Qmin 0 (Qmax v lo) /\ Qmin 0 (Qmax v lo) <= 0.
Proof.
  intros Hlo; split.
  - apply Q.min_glb; [exact Hlo | apply Q.le_max_r].
  - apply Q.le_min_l.
Qed.

(** is [0] when the lower bound is positive, *)
Lemma clamp_collapse (v lo : Q) : 0 < lo -> Qmin 0 (Qmax v lo) == 0.
Proof.
  intros Hlo. apply Q.min_l.
  apply Qle_trans with lo; [apply Qlt_le_weak, Hlo | apply Q.le_max_r].
Qed.

(** and is the identity on [[lo, 0]]. *)
Lemma clamp_id (v lo : Q) : lo <= v -> v <= 0 -> Qmin 0 (Qmax v lo) == v.
Proof.
  intros H1 H2. rewrite (Q.max_l v lo H1). apply Q.min_r, H2.
Qed.

(** Halving, in the form linear arithmetic understands. *)
Lemma Qhalf (a : Q) : a / 2 == a * (1 # 2).
Proof. unfold Qdiv. reflexivity. Qed.

Lemma Qdiv_mult_cancel (a b : Q) : ~ b == 0 -> b * (a / b) == a.
Proof. intros Hb. field. exact Hb. Qed.

Lemma Qpos_neq0 (b : Q) : 0 < b -> ~ b == 0.
Proof. intros Hb E. rewrite E in Hb. apply (Qlt_irrefl 0 Hb). Qed.

(** [a / b <= s] says [a <= s * b] when [b] is positive. *)
Lemma Qdiv_le_iff (a b s : Q) : 0 < b -> (a / b <= s <-> a <= s * b).
Proof.
  intros Hb. split; intros H.
  - rewrite <- (Qdiv_mult_cancel a b (Qpos_neq0 b Hb)).
    rewrite (Qmult_comm b). apply Qmult_le_compat_r; [exact H|].
    apply Qlt_le_weak, Hb.
  - apply Qle_shift_div_r; assumption.
Qed.

(** Comparing two ratios with positive denominators. *)
Lemma Qdiv_lt_cross (a b c d : Q) :
  0 < b -> 0 < d -> (a / b < c / d <-> a * d < c * b).
Proof.
  intros Hb Hd.
  assert (E : a / b * d == a * d / b) by (field; apply Qpos_neq0, Hb).
  split; intros H.
  - apply Qnot_le_lt. intros Hle. apply (Qlt_not_le _ _ H).
    apply Qle_shift_div_r; [exact Hd|].
    rewrite E. apply Qle_shift_div_l; assumption.
  - apply Qlt_shift_div_l; [exact Hd|].
    rewrite E. apply Qlt_shift_div_r; assumption.
Qed.

End QFacts.

(* ================================================================== *)
(** ** The viewport transform controller *)

Module ControllerProps.

Import Controller QFacts.

(** Decides a comparison of two rational constants. *)
Ltac qcompare := vm_compute; first [reflexivity | discriminate].

(** *** [clampPosition] *)

Lemma clampPosition_scale (t : Transform) c d :
  scale (clampPosition t c d) = scale t.
Proof. reflexivity. Qed.

Lemma clampPosition_covers (t : Transform) c d :
  covers c d (clampPosition t c d) <-> covers c d t.
Proof. unfold covers. rewrite clampPosition_scale. tauto. Qed.

(** Where the scale covers the frame, clamping puts the position in bounds. *)
Lemma clampPosition_within_bounds (t : Transform) c d :
  covers c d t -> within_bounds c d (clampPosition t c d).
Proof.
  intros [Hw Hh]. unfold within_bounds, clampPosition; cbn.
  assert (Lx : canvas_width c - width d * scale t <= 0) by lra.
  assert (Ly : canvas_height c - height d * scale t <= 0) by lra.
  destruct (clamp_range (x t) _ Lx) as [X1 X2].
  destruct (clamp_range (y t) _ Ly) as [Y1 Y2].
  repeat split; try assumption.
  - eapply Qle_trans; [|exact X1]. lra.
  - eapply Qle_trans; [|exact Y1]. lra.
Qed.

Lemma clampPosition_cover_invariant (t : Transform) c d :
  covers c d t -> cover_invariant c d (clampPosition t c d).
Proof.
  intros H. split.
  - apply clampPosition_covers, H.
  - apply clampPosition_within_bounds, H.
Qed.

(** Clamping leaves a transform that satisfies the invariant as it is. *)
Lemma clampPosition_fixes (t : Transform) c d :
  cover_invariant c d t -> Teq (clampPosition t c d) t.
Proof.
  intros [_ [[X1 X2] [Y1 Y2]]]. unfold Teq, clampPosition; cbn.
  split; [reflexivity|]. split; apply clamp_id; lra.
Qed.

(** *** Drag *)

Lemma dragUpdate_scale dx dy c d (prev : Transform) :
  scale (dragUpdate dx dy c d prev) = scale prev.
Proof. reflexivity. Qed.

Lemma dragUpdate_cover_invariant dx dy c d (prev : Transform) :
  covers c d prev -> cover_invariant c d (dragUpdate dx dy c d prev).
Proof.
  intros H. unfold dragUpdate. apply clampPosition_cover_invariant. exact H.
Qed.

(** A drag to the right from the right-most legal position stays there. *)
Lemma dragUpdate_at_right_bound dx dy c d (prev : Transform) :
  covers c d prev -> x prev == 0 -> 0 <= dx ->
  x (dragUpdate dx dy c d prev) == 0.
Proof.
  intros [Hw _] Hx Hdx. unfold dragUpdate, clampPosition; cbn.
  apply Q.min_l. apply Qle_trans with (x prev + dx); [lra|].
  apply Q.le_max_l.
Qed.

(** *** Wheel zoom *)


Lemma revealsEmptySpace_false (t : Transform) c d :
  revealsEmptySpace t c d = false <-> covers c d t.
Proof.
  unfold revealsEmptySpace, covers. rewrite orb_false_iff, !Qltb_false. tauto.
Qed.

Lemma wheelCandidate_scale e c d (prev : Transform) :
  scale (wheelCandidate e c d prev)
  = Qmax (1 # 10) (scale prev + deltaY e * - (1 # 1000)).
Proof. reflexivity. Qed.

(** The two ways a wheel event ends: rejected, or accepted with a candidate
    that covers the frame. *)
Lemma wheelUpdate_cases e c d (prev : Transform) :
  (revealsEmptySpace (wheelCandidate e c d prev) c d = true /\
   wheelUpdate e c d prev = prev) \/
  (covers c d (wheelCandidate e c d prev) /\
   wheelUpdate e c d prev = wheelCandidate e c d prev).
Proof.
  unfold wheelUpdate.
  destruct (revealsEmptySpace (wheelCandidate e c d prev) c d) eqn:E.
  - left; split; reflexivity.
  - right; split; [apply revealsEmptySpace_false, E | reflexivity].
Qed.

Lemma wheelUpdate_cover_invariant e c d (prev : Transform) :
  cover_invariant c d prev -> cover_invariant c d (wheelUpdate e c d prev).
Proof.
  intros Hprev.
  destruct (wheelUpdate_cases e c d prev) as [[_ ->] | [Hcov ->]].
  - exact Hprev.
  - unfold wheelCandidate in *.
    apply clampPosition_cover_invariant.
    apply clampPosition_covers in Hcov. exact Hcov.
Qed.

(** *** The cover scale *)

Lemma covers_coverScale c d (t : Transform) :
  0 < width d -> 0 < height d ->
  (covers c d t <-> coverScale c d <= scale t).
Proof.
  intros Hw Hh. unfold covers, coverScale.
  rewrite Q.max_lub_iff, !Qdiv_le_iff by assumption. tauto.
Qed.

Lemma positive_scale_of_cover c d (t : Transform) :
  positive_sizes c d -> covers c d t -> 0 < scale t.
Proof.
  intros [[Hcw _] [Hiw _]] [Hc _].
  apply Qnot_le_lt. intros Hs.
  assert (scale t * width d <= 0); [|lra].
  setoid_replace (scale t * width d) with (- (- scale t * width d)) by ring.
  assert (0 <= - scale t * width d); [|lra].
  apply Qmult_le_0_compat; lra.
Qed.

(** *** The hook as a state machine *)

Lemma dispatch_cover_invariant c d ev (st : HookState) :
  cover_invariant c d (transform st) ->
  cover_invariant c d (transform (dispatch (Some c) true (Some d) ev st)).
Proof.
  intros H. destruct ev as [e| | |e|e]; cbn; try exact H.
  - unfold handleMouseMove. destruct (isDragging st); cbn; [|exact H].
    apply dragUpdate_cover_invariant, H.
  - apply wheelUpdate_cover_invariant, H.
Qed.

(** A hook whose listeners are not installed keeps its transform. *)
Lemma dispatch_disabled canvas enabled dims ev (st : HookState) :
  canvas = None \/ enabled = false \/ dims = None ->
  dispatch canvas enabled dims ev st = st.
Proof.
  intros [-> | [-> | ->]]; unfold dispatch.
  - reflexivity.
  - destruct canvas; reflexivity.
  - destruct canvas, enabled; reflexivity.
Qed.

(** *** The claims about the controller *)

(** C1, as amended.  Given fixed canvas and image sizes with positive
    dimensions, if the previous transform satisfies the cover invariant,
    then so does the transform produced from it by a drag (via
    [clampPosition]) or by a wheel zoom: [scale * imageWidth >= canvasWidth],
    [scale * imageHeight >= canvasHeight], and
    [canvasWidth - scale * imageWidth <= x <= 0],
    [canvasHeight - scale * imageHeight <= y <= 0].  (With positive sizes
    the invariant makes the previous scale positive, so the wheel handler
    divides by a non-zero number.) *)
Theorem controller_preserves_cover_invariant c d (prev : Transform) :
  positive_sizes c d ->
  cover_invariant c d prev ->
  (forall dx dy, cover_invariant c d (dragUpdate dx dy c d prev)) /\
  (forall e, cover_invariant c d (wheelUpdate e c d prev)).
Proof.
  intros _ Hprev. split.
  - intros dx dy. apply dragUpdate_cover_invariant, Hprev.
  - intros e. apply wheelUpdate_cover_invariant, Hprev.
Qed.

Lemma controller_preserves_cover_invariant_witness :
  cover_invariant Samples.frame Samples.bigImage
    (dragUpdate 50 0 Samples.frame Samples.bigImage Samples.covering) /\
  cover_invariant Samples.frame Samples.bigImage
    (wheelUpdate Samples.zoomOutNotch Samples.frame Samples.bigImage
       Samples.covering).
Proof.
  destruct (controller_preserves_cover_invariant
              Samples.frame Samples.bigImage Samples.covering) as [D W].
  - repeat split; qcompare.
  - repeat split; qcompare.
  - split; [apply D | apply W].
Defined.

(** C1, as stated, fails: a drag from a transform whose scale does not cover
    the frame yields a transform that violates the cover invariant (here the
    scaled image is 200 high in a frame 400 high). *)
Lemma drag_from_uncovered_breaks_invariant :
  ~ cover_invariant Samples.squareFrame Samples.wideImage
      (dragUpdate 0 0 Samples.squareFrame Samples.wideImage Samples.staleSeed).
Proof.
  intros [[_ H] _]. vm_compute in H. apply H. reflexivity.
Qed.




(** C9.  When the scaled image is strictly smaller than the canvas on an
    axis, [clampPosition] returns 0 for that axis's coordinate whatever the
    input position, and it leaves the scale as it is: the clamped transform
    still fails to cover the frame. *)
Theorem clampPosition_cannot_restore_cover (t : Transform) c d :
  scale t * width d < canvas_width c \/
  scale t * height d < canvas_height c ->
  (scale t * width d < canvas_width c -> x (clampPosition t c d) == 0) /\
  (scale t * height d < canvas_height c -> y (clampPosition t c d) == 0) /\
  scale (clampPosition t c d) = scale t /\
  ~ covers c d (clampPosition t c d).
Proof.
  intros Hsmall. repeat split.
  - intros H. unfold clampPosition; cbn. apply clamp_collapse. lra.
  - intros H. unfold clampPosition; cbn. apply clamp_collapse. lra.
  - intros [Hw Hh]. rewrite clampPosition_scale in Hw, Hh.
    destruct Hsmall as [H | H]; lra.
Qed.

Lemma clampPosition_cannot_restore_cover_witness :
  x (clampPosition Samples.shrunk Samples.frame Samples.bigImage) == 0 /\
  y (clampPosition Samples.shrunk Samples.frame Samples.bigImage) == 0.
Proof.
  destruct (clampPosition_cannot_restore_cover
              Samples.shrunk Samples.frame Samples.bigImage)
    as (Hx & Hy & _ & _).
  - left. qcompare.
  - split; [apply Hx | apply Hy]; qcompare.
Defined.

End ControllerProps.

(* ================================================================== *)
(** ** Seeding the transform *)

Module SeedProps.

Import Controller QFacts ControllerProps.
Import Editor.

Lemma initialCoverTransform_x c d :
  x (initialCoverTransform c d)
  = (canvas_width c - width d * scale (initialCoverTransform c d)) / 2.
Proof. reflexivity. Qed.

Lemma initialCoverTransform_y c d :
  y (initialCoverTransform c d)
  = (canvas_height c - height d * scale (initialCoverTransform c d)) / 2.
Proof. reflexivity. Qed.

(** The branch on the two aspect ratios picks the larger of the two
    per-axis scales. *)
Lemma initialCoverTransform_scale c d :
  positive_sizes c d ->
  scale (initialCoverTransform c d) == coverScale c d.
Proof.
  intros [[Hcw Hch] [Hiw Hih]].
  unfold initialCoverTransform, coverScale; cbn.
  destruct (Qltb (width d / height d) (canvas_width c / canvas_height c)) eqn:E.
  - apply Qltb_true in E.
    apply (Qdiv_lt_cross (width d) (height d)
             (canvas_width c) (canvas_height c) Hih Hch) in E.
    symmetry. apply Q.max_l.
    apply Qdiv_le_iff; [assumption|].
    setoid_replace (canvas_width c / width d * height d)
      with (canvas_width c * height d / width d)
      by (field; apply Qpos_neq0, Hiw).
    apply Qle_shift_div_l; [assumption|]. lra.
  - apply Qltb_false in E.
    assert (C : canvas_width c * height d <= canvas_height c * width d).
    { apply Qnot_lt_le. intros Hlt. apply (Qle_not_lt _ _ E).
      apply (Qdiv_lt_cross (width d) (height d)
               (canvas_width c) (canvas_height c) Hih Hch). lra. }
    symmetry. apply Q.max_r.
    apply Qdiv_le_iff; [assumption|].
    setoid_replace (canvas_height c / height d * width d)
      with (canvas_height c * width d / height d)
      by (field; apply Qpos_neq0, Hih).
    apply Qle_shift_div_l; [assumption|]. lra.
Qed.

Lemma initialCoverTransform_covers c d :
  positive_sizes c d -> covers c d (initialCoverTransform c d).
Proof.
  intros H. pose proof H as [_ [Hiw Hih]].
  apply covers_coverScale; try assumption.
  rewrite (initialCoverTransform_scale c d H). apply Qle_refl.
Qed.

Lemma initialCoverTransform_cover_invariant c d :
  positive_sizes c d -> cover_invariant c d (initialCoverTransform c d).
Proof.
  intros H. pose proof (initialCoverTransform_covers c d H) as Hc.
  split; [exact Hc|]. destruct Hc as [Hw Hh].
  unfold within_bounds.
  rewrite initialCoverTransform_x, initialCoverTransform_y, !Qhalf.
  repeat split; lra.
Qed.

(** In exact arithmetic the seed is what the specification describes: for
    a canvas and an image of positive dimensions it has the scale
    [coverScale] and centres the image, it satisfies the cover invariant,
    and [clampPosition] returns it unchanged.  (The program computes it in
    binary64, where this fails: see [Binary64Props].) *)
Lemma exact_seed_is_clamp_fixed_point c d :
  positive_sizes c d ->
  Teq (initialCoverTransform c d) (Spec.seedCoverTransform c d) /\
  cover_invariant c d (initialCoverTransform c d) /\
  Teq (clampPosition (initialCoverTransform c d) c d)
      (initialCoverTransform c d).
Proof.
  intros H. pose proof (initialCoverTransform_scale c d H) as Hs.
  pose proof (initialCoverTransform_cover_invariant c d H) as Hinv.
  repeat split; try apply Hinv.
  - exact Hs.
  - rewrite initialCoverTransform_x. cbn. rewrite Hs. field.
  - rewrite initialCoverTransform_y. cbn. rewrite Hs. field.
  - apply (clampPosition_fixes _ c d Hinv).
  - apply (clampPosition_fixes _ c d Hinv).
Qed.

(** The seed is computed on the canvas as it is when the ratio is selected;
    a frame resized afterwards need not be covered by it: a 200x100 image
    seeded on its 400x200 canvas does not cover the 400x400 frame of the
    ratio 1:1. *)
Remark seed_on_resized_frame :
  Teq (initialCoverTransform Samples.originalFrame Samples.wideImage)
      Samples.staleSeed /\
  ~ covers Samples.squareFrame Samples.wideImage
      (initialCoverTransform Samples.originalFrame Samples.wideImage).
Proof.
  split.
  - repeat split; qcompare.
  - intros [_ H]. vm_compute in H. apply H. reflexivity.
Qed.

End SeedProps.

(* ================================================================== *)
(** ** The seed in binary64 *)

Module Binary64Props.

Import PrimFloat.
Import Binary64.
Local Open Scope float_scope.

(** [clampPosition] copies the scale, in binary64 as in exact arithmetic. *)
Lemma clampPosition_scale_kept t c d :
  scale (clampPosition t c d) = scale t.
Proof. reflexivity. Qed.

(** C5.  The claim fails on the program's own arithmetic.  A 1000x700
    image shown in its original proportions in a 700x500 container has the
    canvas 700x490.  The transform [handleSelectAspectRatio] seeds there
    has the scale 490/700 rounded to binary64, which lies below 0.7, so
    that [700 * scale = 489.99999999999994 < 490]: the seeded image does
    not cover the canvas, its [y = 2^-45] is positive, that is out of
    bounds, and [clampPosition] does not return the seed but moves it to
    [y = 0]. *)
Theorem seed_is_moved_by_clamp :
  let canvas := postcardCanvas in
  let seed := initialCoverTransform canvas postcard in
  canvas = {| canvas_width := 700; canvas_height := 490 |} /\
  (height postcard * scale seed <? canvas_height canvas) = true /\
  (0 <? y seed) = true /\
  clampPosition seed canvas postcard
  = {| scale := scale seed; x := 0; y := 0 |} /\
  clampPosition seed canvas postcard <> seed.
Proof.
  intros canvas seed.
  split; [vm_compute; reflexivity|].
  split; [vm_compute; reflexivity|].
  split; [vm_compute; reflexivity|].
  split; [vm_compute; reflexivity|].
  intros H. apply (f_equal (fun t => y t =? 0)) in H.
  vm_compute in H. discriminate H.
Qed.

(** The same on the other axis, for a 1920x1080 image in a container of
    980x720: the canvas is 980x551, the seed has [x = 2^-44 > 0] and the
    clamp moves it to [x = 0]. *)
Remark seed_is_moved_full_hd :
  let image := {| width := 1920; height := 1080 |} in
  let canvas := canvasSize 1920 1080 980 720 None in
  let seed := initialCoverTransform canvas image in
  canvas = {| canvas_width := 980; canvas_height := 551 |} /\
  (width image * scale seed <? canvas_width canvas) = true /\
  (0 <? x seed) = true /\
  x (clampPosition seed canvas image) = 0.
Proof. repeat split; vm_compute; reflexivity. Qed.

End Binary64Props.

(* ================================================================== *)
(** ** The watermark *)

Module WatermarkProps.

Import Controller QFacts ControllerProps.
Import Canvas Watermark.

(** *** Anchor resolution *)

(** [getPosition] never reads [isVertical]: on either axis it resolves the
    horizontal component of the anchor. *)
Lemma getPosition_horizontal canvasSize contentSize p isVertical :
  getPosition canvasSize contentSize p isVertical
  = Spec.anchorOffset canvasSize contentSize (Spec.horizontal p).
Proof. destruct p; reflexivity. Qed.

(** Hence it agrees with the specification on the horizontal axis, *)
Lemma getPosition_x_correct canvasSize contentSize p :
  getPosition canvasSize contentSize p false
  = Spec.anchorOffset canvasSize contentSize (Spec.horizontal p).
Proof. apply getPosition_horizontal. Qed.

(** and on the vertical axis for the anchors whose two components agree. *)
Lemma getPosition_y_correct canvasSize contentSize p :
  Spec.vertical p = Spec.horizontal p ->
  getPosition canvasSize contentSize p true
  = Spec.anchorOffset canvasSize contentSize (Spec.vertical p).
Proof. intros ->. apply getPosition_horizontal. Qed.

(** The two examples of the specification. *)
Example anchor_bottom_right :
  getPosition 500 100 BottomRight false == 380 /\
  getPosition 400 30 BottomRight true == 350.
Proof. split; qcompare. Qed.

Example anchor_center :
  getPosition 500 100 Center false == 200 /\
  getPosition 400 30 Center true == 185.
Proof. split; qcompare. Qed.

(** C3 at its failing inputs.  On the vertical axis of a 400 high canvas,
    for content 30 high, the source places the anchor [TopRight] at 350 and
    [BottomLeft] at 20, where the per-axis rule gives 20 and 350. *)
Theorem getPosition_vertical_follows_horizontal :
  (getPosition 400 30 TopRight true == 350 /\
   Spec.anchorOffset 400 30 (Spec.vertical TopRight) == 20) /\
  (getPosition 400 30 BottomLeft true == 20 /\
   Spec.anchorOffset 400 30 (Spec.vertical BottomLeft) == 350).
Proof. repeat split; qcompare. Qed.

(** *** Logo sizing *)

Lemma drawWatermarkLogo_draws logo settings canvasWidth canvasHeight :
  drawWatermarkLogo (Some logo) settings canvasWidth canvasHeight
  = [DrawImage logo None
       {| rect_x := getPosition canvasWidth
                      (fst (logoSize logo canvasWidth canvasHeight))
                      (position settings) false;
          rect_y := getPosition canvasHeight
                      (snd (logoSize logo canvasWidth canvasHeight))
                      (position settings) true;
          rect_w := fst (logoSize logo canvasWidth canvasHeight);
          rect_h := snd (logoSize logo canvasWidth canvasHeight) |}].
Proof.
  unfold drawWatermarkLogo.
  destruct (logoSize logo canvasWidth canvasHeight); reflexivity.
Qed.

Section LogoSize.

Variable logo : HTMLImageElement.
Variables canvasWidth canvasHeight : Q.
Hypothesis logo_width_pos : 0 < image_width logo.
Hypothesis logo_height_pos : 0 < image_height logo.

Let ratio := image_width logo / image_height logo.

Lemma logo_ratio_pos : 0 < ratio.
Proof.
  unfold ratio. apply Qlt_shift_div_l; [assumption|]. lra.
Qed.

Lemma logo_ratio_neq0 : ~ ratio == 0.
Proof. apply Qpos_neq0, logo_ratio_pos. Qed.

(** The two outcomes of the width-first sizing. *)
Lemma logoSize_cases :
  (canvasHeight * (15 # 100) < canvasWidth * (15 # 100) / ratio /\
   logoSize logo canvasWidth canvasHeight
   = (canvasHeight * (15 # 100) * ratio, canvasHeight * (15 # 100))) \/
  (canvasWidth * (15 # 100) / ratio <= canvasHeight * (15 # 100) /\
   logoSize logo canvasWidth canvasHeight
   = (canvasWidth * (15 # 100), canvasWidth * (15 # 100) / ratio)).
Proof.
  unfold logoSize. fold ratio.
  destruct (Qltb (canvasHeight * (15 # 100))
                 (canvasWidth * (15 # 100) / ratio)) eqn:E.
  - left. split; [apply Qltb_true, E | reflexivity].
  - right. split; [apply Qltb_false, E | reflexivity].
Qed.

Lemma logoSize_width_bound :
  fst (logoSize logo canvasWidth canvasHeight) <= (15 # 100) * canvasWidth.
Proof.
  destruct logoSize_cases as [[H ->] | [H ->]]; cbn [fst].
  - apply Qlt_le_weak.
    apply (Qmult_lt_compat_r _ _ ratio logo_ratio_pos) in H.
    setoid_replace (canvasWidth * (15 # 100) / ratio * ratio)
      with ((15 # 100) * canvasWidth) in H
      by (field; apply logo_ratio_neq0).
    exact H.
  - lra.
Qed.

Lemma logoSize_height_bound :
  snd (logoSize logo canvasWidth canvasHeight) <= (15 # 100) * canvasHeight.
Proof.
  destruct logoSize_cases as [[H ->] | [H ->]]; cbn [snd]; lra.
Qed.



End LogoSize.



End WatermarkProps.

(* ================================================================== *)
(** ** Crop extraction against the compositor *)

Module CropProps.

Import Controller QFacts ControllerProps.
Import Canvas Watermark Editor.

(** What the compositor draws while a ratio is pending. *)
Lemma pending_frame_draw measureText logo settings mainImage canvas
    (t : Transform) :
  drawImageWithWatermark measureText logo settings mainImage canvas t true
  = ClearRect {| rect_x := 0; rect_y := 0;
                 rect_w := canvas_width canvas;
                 rect_h := canvas_height canvas |}
    :: DrawImage mainImage None (pendingDest mainImage t)
    :: applyWatermark measureText logo settings
         (canvas_width canvas) (canvas_height canvas).
Proof. reflexivity. Qed.

(** What the extractor draws: the crop rectangle, at the origin of the
    off-screen canvas, with the sizes as they were computed. *)
Lemma crop_draw mainImage canvas (t : Transform) :
  off_ops (cropCanvas mainImage canvas t)
  = [DrawImage mainImage (Some (cropRect canvas t))
       {| rect_x := 0; rect_y := 0;
          rect_w := rect_w (cropRect canvas t);
          rect_h := rect_h (cropRect canvas t) |}].
Proof. reflexivity. Qed.

(** A positive factor maps an interval from the origin onto an interval
    from the origin. *)
Lemma scaled_interval (s a b w v : Q) :
  0 < s -> a == s * b -> w == s * v ->
  (0 <= a /\ a <= w <-> 0 <= b /\ b <= v).
Proof.
  intros Hs -> ->.
  rewrite (Qmult_le_l b v s Hs).
  setoid_replace 0 with (s * 0) at 1 by ring.
  rewrite (Qmult_le_l 0 b s Hs). tauto.
Qed.

(** *** Whole pixels *)

(** A size between 0 and 2^31 is stored rounded down. *)
Lemma storedSize_floor (default : Z) (v : Q) :
  0 <= v -> v < 2147483648 -> storedSize default v = inject_Z (Qfloor v).
Proof.
  destruct v as [n d]. unfold Qle, Qlt, storedSize, toUint32, Qfloor.
  cbn [Qnum Qden]. intros Hlo Hhi.
  assert (Hn : (0 <= n)%Z) by lia.
  rewrite Z.quot_div_nonneg by lia.
  assert (Hq : (0 <= n / Zpos d < 2147483648)%Z).
  { split; [apply Z.div_pos; lia|].
    apply Z.div_lt_upper_bound; lia. }
  rewrite Z.mod_small by lia.
  destruct (Z.leb_spec (n / Zpos d) 2147483647); [reflexivity | lia].
Qed.

Lemma floor_bounds (v : Q) :
  inject_Z (Qfloor v) <= v /\ v < inject_Z (Qfloor v) + 1.
Proof.
  split; [apply Qfloor_le|].
  pose proof (Qlt_floor v) as H. rewrite inject_Z_plus in H. exact H.
Qed.

Lemma floor_at_least_one (v : Q) : 1 <= v -> 1 <= inject_Z (Qfloor v).
Proof.
  intros H. change 1 with (inject_Z 1). rewrite <- Zle_Qle.
  rewrite <- (Qfloor_Z 1). apply Qfloor_resp_le, H.
Qed.

(** The size the off-screen canvas holds, for a storable rectangle: the
    computed sides rounded down, each less than one pixel short. *)
Lemma cropCanvasOf_size mainImage (r : Rect) :
  storable r ->
  let crop := cropCanvasOf mainImage r in
  (off_width crop = inject_Z (Qfloor (rect_w r)) /\
   off_height crop = inject_Z (Qfloor (rect_h r))) /\
  (1 <= off_width crop /\ off_width crop <= rect_w r /\
   rect_w r < off_width crop + 1) /\
  (1 <= off_height crop /\ off_height crop <= rect_h r /\
   rect_h r < off_height crop + 1).
Proof.
  intros [[Hw1 Hw2] [Hh1 Hh2]] crop. subst crop.
  unfold cropCanvasOf; cbn [off_width off_height].
  assert (P : forall v, 1 <= v -> 0 <= v) by (intros v Hv; lra).
  rewrite (storedSize_floor 300 _ (P _ Hw1) Hw2).
  rewrite (storedSize_floor 150 _ (P _ Hh1) Hh2).
  destruct (floor_bounds (rect_w r)) as [Lw Uw].
  destruct (floor_bounds (rect_h r)) as [Lh Uh].
  repeat split; try assumption; apply floor_at_least_one; assumption.
Qed.

(** *** Numbers up to a relative error *)

Lemma Qabs_bounds (v : Q) : 0 <= Qabs v /\ - Qabs v <= v /\ v <= Qabs v.
Proof.
  split; [apply Qabs_nonneg|]. split; [|apply Qle_Qabs].
  pose proof (Qle_Qabs (- v)) as H. rewrite Qabs_opp in H. lra.
Qed.

Lemma closeTo_interval (u a b : Q) :
  closeTo u a b -> - (u * Qabs b) <= a - b /\ a - b <= u * Qabs b.
Proof. unfold closeTo. intros H. apply Qabs_Qle_condition in H. exact H. Qed.

Lemma closeTo_positive (u a b : Q) :
  0 <= b -> closeTo u a b -> - (u * b) <= a - b /\ a - b <= u * b.
Proof.
  intros Hb H. apply closeTo_interval in H.
  rewrite (Qabs_pos b Hb) in H. exact H.
Qed.

Lemma closeTo_exact (a b : Q) : closeTo 0 a b -> a == b.
Proof. intros H. apply closeTo_interval in H. lra. Qed.

Lemma Qabs_quotient (a s : Q) : 0 < s -> s * Qabs (a / s) == Qabs a.
Proof.
  intros Hs. unfold Qdiv. rewrite Qabs_Qmult, Qabs_Qinv.
  rewrite (Qabs_pos s) by lra. field. apply Qpos_neq0, Hs.
Qed.

Lemma scaled_le (u a b : Q) :
  0 <= u -> 0 <= a -> a <= b -> u * a <= 4 * u * b.
Proof. intros Hu Ha H. nra. Qed.

(** A product of a number between 0 and [w] with one of size at most [e]. *)
Lemma product_within (p w d e : Q) :
  0 <= p -> p <= w -> - e <= d -> d <= e ->
  - (w * e) <= p * d /\ p * d <= w * e.
Proof. intros H0 H1 H2 H3. split; nra. Qed.

(** One axis of the round trip.  [s] is the scale, [X] the position of the
    transform, [W] the size of the image and [c] that of the frame on this
    axis; [sx], [sw], [dx], [dw] are the four numbers computed for it, up to
    the relative error [u]; [bw] is the size the buffer stores; [px] is a
    coordinate in the image. *)
Section Axis.

Variables u s X W c px : Q.
Variables sx sw dx dw bw : Q.
Hypothesis u_nonneg : 0 <= u.
Hypothesis s_pos : 0 < s.
Hypothesis W_pos : 0 < W.
Hypothesis c_pos : 0 < c.
Hypothesis sx_computed : closeTo u sx (- X / s).
Hypothesis sw_computed : closeTo u sw (c / s).
Hypothesis dx_computed : closeTo u dx X.
Hypothesis dw_computed : closeTo u dw (W * s).
Hypothesis bw_floor : bw <= sw /\ sw < bw + 1.
Hypothesis px_in_image : 0 <= px /\ px <= W.

(** Where the frame shows the coordinate, and where the buffer does. *)
Let F : Q := dx + px * (dw / W).
Let B : Q := px - sx.

Lemma axis_sx : - (u * Qabs X) <= s * sx + X /\ s * sx + X <= u * Qabs X.
Proof.
  destruct (closeTo_interval _ _ _ sx_computed) as [L U].
  pose proof (Qabs_quotient (- X) s s_pos) as E. rewrite Qabs_opp in E.
  pose proof (Qdiv_mult_cancel (- X) s (Qpos_neq0 _ s_pos)) as D.
  pose proof (Qabs_nonneg (- X / s)) as N.
  revert L U E D N.
  generalize (Qabs (- X / s)), (- X / s), (Qabs X). intros aq q A L U E D N.
  split; nra.
Qed.

Lemma axis_dx : - (u * Qabs X) <= dx - X /\ dx - X <= u * Qabs X.
Proof. apply closeTo_interval, dx_computed. Qed.

Lemma axis_magnification :
  - (u * s) <= dw / W - s /\ dw / W - s <= u * s.
Proof.
  assert (P : 0 <= W * s) by nra.
  destruct (closeTo_positive _ _ _ P dw_computed) as [L U].
  pose proof (Qdiv_mult_cancel dw W (Qpos_neq0 _ W_pos)) as D.
  revert L U D. generalize (dw / W). intros m L U D.
  split; nra.
Qed.

Lemma axis_sw : c - u * c <= s * sw /\ s * sw <= c + u * c.
Proof.
  pose proof (Qdiv_mult_cancel c s (Qpos_neq0 _ s_pos)) as D.
  assert (P : 0 <= c / s).
  { revert D. generalize (c / s). intros q D. nra. }
  destruct (closeTo_positive _ _ _ P sw_computed) as [L U].
  revert L U D. generalize (c / s). intros q L U D.
  split; nra.
Qed.

(** The frame shows the coordinate at [s] times its place in the buffer. *)
Lemma axis_placement :
  - (u * (2 * Qabs X + s * W)) <= F - s * B /\
  F - s * B <= u * (2 * Qabs X + s * W).
Proof.
  destruct axis_sx as [L1 U1]. destruct axis_dx as [L2 U2].
  destruct axis_magnification as [L3 U3].
  destruct px_in_image as [P0 P1].
  destruct (product_within px W (dw / W - s) (u * s) P0 P1 L3 U3) as [L4 U4].
  subst F B. revert L1 U1 L2 U2 L4 U4.
  generalize (dw / W), (Qabs X). intros m A L1 U1 L2 U2 L4 U4.
  split; nra.
Qed.

(** The frame is the buffer magnified by [s], up to a pixel of the buffer. *)
Lemma axis_size :
  s * bw <= c + u * c /\ c - u * c < s * (bw + 1).
Proof.
  destruct axis_sw as [L U]. destruct bw_floor as [Lb Ub]. split; nra.
Qed.

Lemma axis_buffer_within_frame (tol : Q) :
  u * (c + 2 * Qabs X + s * W) <= tol ->
  0 <= B /\ B <= bw -> - tol <= F /\ F <= c + tol.
Proof.
  intros Ht [B0 B1].
  destruct axis_placement as [L U]. destruct axis_size as [S1 _].
  pose proof (Qabs_nonneg X) as A0.
  revert L U Ht A0. generalize (Qabs X). intros A L U Ht A0.
  split; nra.
Qed.

Lemma axis_frame_within_buffer (tol : Q) :
  u * (c + 2 * Qabs X + s * W) <= tol ->
  0 <= F /\ F <= c -> - (tol / s) <= B /\ B <= bw + 1 + tol / s.
Proof.
  intros Ht [F0 F1].
  destruct axis_placement as [L U]. destruct axis_size as [_ S2].
  pose proof (Qabs_nonneg X) as A0.
  pose proof (Qdiv_mult_cancel tol s (Qpos_neq0 _ s_pos)) as D.
  revert L U Ht A0 D. generalize (Qabs X), (tol / s). intros A ts L U Ht A0 D.
  split; nra.
Qed.

(** In exact arithmetic, and when the computed size is whole, the frame
    and the buffer show the same coordinates. *)
Lemma axis_exact :
  u == 0 -> F == s * B /\ (sw == bw -> (0 <= F /\ F <= c <-> 0 <= B /\ B <= bw)).
Proof.
  intros Hu.
  destruct axis_placement as [L U]. destruct axis_sw as [L1 U1].
  pose proof (Qabs_nonneg X) as A0.
  assert (E : F == s * B).
  { revert L U A0. generalize (Qabs X). intros A L U A0. nra. }
  split; [exact E|]. intros Hw.
  assert (Ec : c == s * bw) by nra.
  apply (scaled_interval s F B c bw s_pos E Ec).
Qed.

End Axis.

(** Where the compositor shows the image point [p] in the frame, for the
    destination [dest]. *)
Lemma inFrame_forward (mainImage : HTMLImageElement) (dest : Rect) (p : Q * Q) :
  let inFrame := place (sourceRect mainImage None) dest p in
  fst inFrame
  == rect_x dest + fst p * (rect_w dest / image_width mainImage) /\
  snd inFrame
  == rect_y dest + snd p * (rect_h dest / image_height mainImage).
Proof. split; cbn; ring. Qed.

(** Where the buffer of the rectangle [r], drawn at 1:1 into a canvas of
    its own size, shows the image point [p]. *)
Lemma shown_inverse (mainImage : HTMLImageElement) (r : Rect)
    (url : string) (p : Q * Q) :
  storable r ->
  let crop := cropCanvasOf mainImage r in
  let inBuffer :=
    place r
      {| rect_x := 0; rect_y := 0; rect_w := rect_w r; rect_h := rect_h r |}
      p in
  let shown :=
    place (sourceRect (Spec.bufferImage crop url) None)
      {| rect_x := 0; rect_y := 0;
         rect_w := off_width crop; rect_h := off_height crop |}
      inBuffer in
  fst shown == fst p - rect_x r /\ snd shown == snd p - rect_y r.
Proof.
  intros Hstorable crop inBuffer shown.
  destruct (cropCanvasOf_size mainImage r Hstorable)
    as (_ & (Bw & _) & (Bh & _)).
  fold crop in Bw, Bh.
  destruct Hstorable as [[Sw _] [Sh _]].
  assert (Nbw : ~ off_width crop == 0) by (intros E; lra).
  assert (Nbh : ~ off_height crop == 0) by (intros E; lra).
  assert (Nsw : ~ rect_w r == 0) by (intros E; lra).
  assert (Nsh : ~ rect_h r == 0) by (intros E; lra).
  subst shown inBuffer. unfold place, Spec.bufferImage, sourceRect.
  cbn [fst snd rect_x rect_y rect_w rect_h image_width image_height].
  revert Nbw Nbh Nsw Nsh.
  generalize (off_width crop), (off_height crop).
  intros bw bh Nbw Nbh Nsw Nsh.
  split; field; tauto.
Qed.

(** C4, as amended.  Let [t] have positive scale and the image and the
    frame positive sizes.  Let [r] be the rectangle [sx = -t.x / t.scale],
    [sy = -t.y / t.scale], [sWidth = canvasWidth / t.scale],
    [sHeight = canvasHeight / t.scale] and [dest] the destination
    [(t.x, t.y, imageWidth * t.scale, imageHeight * t.scale)] of the
    compositor, each number as it is computed, up to a relative error [u]
    ([u = 0]: exact arithmetic; [u = 2^-53]: binary64), and let [r] hold at
    least one pixel each way.  The extractor draws [r] at the origin of a
    buffer whose canvas stores the size [(floor sWidth, floor sHeight)], so
    that the frame is that canvas magnified by [t.scale] up to the dropped
    pixel fractions.  For every point [p] of the source image, the place
    where the compositor shows [p] in the frame is [t.scale] times the
    place where the buffer, rendered at 1:1 into a canvas of its own size,
    shows it.  Hence what is visible in the buffer is visible in the frame,
    and what is visible in the frame lies in the buffer enlarged by one
    pixel to the right and below.  All this holds within the tolerance
    [tol], which is [4 * u] times the sizes involved and vanishes in exact
    arithmetic; there, the two regions are the same when [sWidth] and
    [sHeight] are whole numbers. *)
Theorem crop_round_trip (u : Q) measureText logo settings mainImage canvas
    (t : Transform) (r dest : Rect) (url : string) (p : Q * Q) :
  0 <= u ->
  0 < scale t ->
  0 < image_width mainImage /\ 0 < image_height mainImage ->
  0 < canvas_width canvas /\ 0 < canvas_height canvas ->
  computed u (cropRect canvas t) r ->
  computed u (pendingDest mainImage t) dest ->
  storable r ->
  on_surface (image_width mainImage) (image_height mainImage) p ->
  let crop := cropCanvasOf mainImage r in
  let frameDraw := DrawImage mainImage None dest in
  let cropDraw :=
    DrawImage mainImage (Some r)
      {| rect_x := 0; rect_y := 0; rect_w := rect_w r; rect_h := rect_h r |} in
  let replay := Spec.drawOneToOne (Spec.bufferImage crop url) in
  let inFrame := Spec.shownAt frameDraw p in
  let shown := Spec.shownAt replay (Spec.shownAt cropDraw p) in
  let tol :=
    4 * u * (canvas_width canvas + canvas_height canvas
             + 2 * Qabs (x t) + 2 * Qabs (y t)
             + scale t * (image_width mainImage + image_height mainImage)) in
  (In (DrawImage mainImage None (pendingDest mainImage t))
      (drawImageWithWatermark measureText logo settings mainImage canvas t true)
   /\ cropCanvas mainImage canvas t = cropCanvasOf mainImage (cropRect canvas t)
   /\ off_ops crop = [cropDraw]) /\
  ((off_width crop = inject_Z (Qfloor (rect_w r)) /\
    off_width crop <= rect_w r /\ rect_w r < off_width crop + 1) /\
   (off_height crop = inject_Z (Qfloor (rect_h r)) /\
    off_height crop <= rect_h r /\ rect_h r < off_height crop + 1)) /\
  ((scale t * off_width crop <= canvas_width canvas + tol /\
    canvas_width canvas - tol < scale t * (off_width crop + 1)) /\
   (scale t * off_height crop <= canvas_height canvas + tol /\
    canvas_height canvas - tol < scale t * (off_height crop + 1))) /\
  (Qabs (fst inFrame - scale t * fst shown) <= tol /\
   Qabs (snd inFrame - scale t * snd shown) <= tol) /\
  (on_surface (off_width crop) (off_height crop) shown ->
   on_surface_within tol (canvas_width canvas) (canvas_height canvas) inFrame) /\
  (on_surface (canvas_width canvas) (canvas_height canvas) inFrame ->
   on_surface_within (tol / scale t)
     (off_width crop + 1) (off_height crop + 1) shown) /\
  (u == 0 ->
   (fst inFrame == scale t * fst shown /\
    snd inFrame == scale t * snd shown) /\
   (rect_w r == off_width crop -> rect_h r == off_height crop ->
    (on_surface (canvas_width canvas) (canvas_height canvas) inFrame <->
     on_surface (off_width crop) (off_height crop) shown))).
Proof.
  intros Hu Hs [Hiw Hih] [Hcw Hch] (Rx & Ry & Rw & Rh) (Dx & Dy & Dw & Dh)
         Hstorable [[Px0 Px1] [Py0 Py1]]
         crop frameDraw cropDraw replay inFrame shown tol.
  destruct (cropCanvasOf_size mainImage r Hstorable)
    as ((Fw & Fh) & (_ & Lw & Uw) & (_ & Lh & Uh)).
  fold crop in Fw, Fh, Lw, Uw, Lh, Uh.
  destruct (inFrame_forward mainImage dest p) as [Ix Iy].
  destruct (shown_inverse mainImage r url p Hstorable) as [Sx Sy].
  change (fst inFrame
          == rect_x dest + fst p * (rect_w dest / image_width mainImage)) in Ix.
  change (snd inFrame
          == rect_y dest + snd p * (rect_h dest / image_height mainImage)) in Iy.
  change (fst shown == fst p - rect_x r) in Sx.
  change (snd shown == snd p - rect_y r) in Sy.
  cbn [cropRect pendingDest rect_x rect_y rect_w rect_h] in Rx, Ry, Rw, Rh,
    Dx, Dy, Dw, Dh.
  pose proof (Qabs_nonneg (x t)) as Ax. pose proof (Qabs_nonneg (y t)) as Ay.
  assert (Pw : 0 <= scale t * image_width mainImage) by nra.
  assert (Ph : 0 <= scale t * image_height mainImage) by nra.
  assert (Tx : u * (canvas_width canvas + 2 * Qabs (x t)
                    + scale t * image_width mainImage) <= tol).
  { subst tol. apply scaled_le; [exact Hu | lra | lra]. }
  assert (Ty : u * (canvas_height canvas + 2 * Qabs (y t)
                    + scale t * image_height mainImage) <= tol).
  { subst tol. apply scaled_le; [exact Hu | lra | lra]. }
  pose proof (axis_placement u (scale t) (x t) (image_width mainImage)
                (fst p) (rect_x r) (rect_x dest) (rect_w dest)
                Hu Hs Hiw Rx Dx Dw (conj Px0 Px1)) as [PLx PUx].
  pose proof (axis_placement u (scale t) (y t) (image_height mainImage)
                (snd p) (rect_y r) (rect_y dest) (rect_h dest)
                Hu Hs Hih Ry Dy Dh (conj Py0 Py1)) as [PLy PUy].
  pose proof (axis_size u (scale t) (canvas_width canvas) (rect_w r)
                (off_width crop) Hu Hs Hcw Rw (conj Lw Uw)) as [SLx SUx].
  pose proof (axis_size u (scale t) (canvas_height canvas) (rect_h r)
                (off_height crop) Hu Hs Hch Rh (conj Lh Uh)) as [SLy SUy].
  split; [|split; [|split; [|split; [|split; [|split]]]]].
  - split; [|split; reflexivity].
    rewrite pending_frame_draw. right; left; reflexivity.
  - repeat split; assumption.
  - assert (Cx : u * canvas_width canvas <= tol).
    { subst tol. apply scaled_le; [exact Hu | lra | lra]. }
    assert (Cy : u * canvas_height canvas <= tol).
    { subst tol. apply scaled_le; [exact Hu | lra | lra]. }
    repeat split; lra.
  - assert (Qx : u * (2 * Qabs (x t) + scale t * image_width mainImage)
                 <= tol).
    { subst tol. apply scaled_le; [exact Hu | lra | lra]. }
    assert (Qy : u * (2 * Qabs (y t) + scale t * image_height mainImage)
                 <= tol).
    { subst tol. apply scaled_le; [exact Hu | lra | lra]. }
    split; apply Qabs_Qle_condition.
    + rewrite Ix, Sx. split; lra.
    + rewrite Iy, Sy. split; lra.
  - intros [Vx Vy]. rewrite Sx in Vx. rewrite Sy in Vy.
    unfold on_surface_within. rewrite Ix, Iy. split.
    + apply (axis_buffer_within_frame u (scale t) (x t)
               (image_width mainImage) (canvas_width canvas) (fst p)
               (rect_x r) (rect_w r) (rect_x dest) (rect_w dest)
               (off_width crop) Hu Hs Hiw Hcw Rx Rw Dx Dw (conj Lw Uw)
               (conj Px0 Px1) tol Tx Vx).
    + apply (axis_buffer_within_frame u (scale t) (y t)
               (image_height mainImage) (canvas_height canvas) (snd p)
               (rect_y r) (rect_h r) (rect_y dest) (rect_h dest)
               (off_height crop) Hu Hs Hih Hch Ry Rh Dy Dh (conj Lh Uh)
               (conj Py0 Py1) tol Ty Vy).
  - intros [Vx Vy]. rewrite Ix in Vx. rewrite Iy in Vy.
    unfold on_surface_within. rewrite Sx, Sy. split.
    + apply (axis_frame_within_buffer u (scale t) (x t)
               (image_width mainImage) (canvas_width canvas) (fst p)
               (rect_x r) (rect_w r) (rect_x dest) (rect_w dest)
               (off_width crop) Hu Hs Hiw Hcw Rx Rw Dx Dw (conj Lw Uw)
               (conj Px0 Px1) tol Tx Vx).
    + apply (axis_frame_within_buffer u (scale t) (y t)
               (image_height mainImage) (canvas_height canvas) (snd p)
               (rect_y r) (rect_h r) (rect_y dest) (rect_h dest)
               (off_height crop) Hu Hs Hih Hch Ry Rh Dy Dh (conj Lh Uh)
               (conj Py0 Py1) tol Ty Vy).
  - intros Hexact.
    destruct (axis_exact u (scale t) (x t) (image_width mainImage)
                (canvas_width canvas) (fst p) (rect_x r) (rect_w r)
                (rect_x dest) (rect_w dest) (off_width crop)
                Hu Hs Hiw Hcw Rx Rw Dx Dw (conj Px0 Px1) Hexact) as [Ex Vx].
    destruct (axis_exact u (scale t) (y t) (image_height mainImage)
                (canvas_height canvas) (snd p) (rect_y r) (rect_h r)
                (rect_y dest) (rect_h dest) (off_height crop)
                Hu Hs Hih Hch Ry Rh Dy Dh (conj Py0 Py1) Hexact) as [Ey Vy].
    split.
    + rewrite Ix, Iy, Sx, Sy. split; assumption.
    + intros Ww Wh. unfold on_surface. rewrite Ix, Iy, Sx, Sy.
      rewrite (Vx Ww), (Vy Wh). tauto.
Qed.

(** The theorem at what the program computes in binary64 for a 1000x1000
    image in the 550x400 frame one wheel notch in, [u] being [2^-53]: the
    buffer is 499 pixels wide, where the exact quotient of 550 by 1.1 is
    500. *)
Lemma crop_round_trip_witness :
  let t := Binary64.exactTransform Binary64.oneNotch in
  let r := Binary64.exactRect Binary64.oneNotchRect in
  let crop := cropCanvasOf Samples.photo r in
  (off_width crop = 499 /\ off_height crop = 363) /\
  Qabs (fst (Spec.shownAt
               (DrawImage Samples.photo None
                  (Binary64.exactRect Binary64.oneNotchDest))
               (300, 400))
        - scale t
          * fst (Spec.shownAt
                   (Spec.drawOneToOne
                      (Spec.bufferImage crop Samples.photoUrl))
                   (Spec.shownAt
                      (DrawImage Samples.photo (Some r)
                         {| rect_x := 0; rect_y := 0;
                            rect_w := rect_w r; rect_h := rect_h r |})
                      (300, 400))))
  <= 1 # 1000000000.
Proof.
  intros t r crop.
  destruct (crop_round_trip (1 # 9007199254740992) (fun _ _ _ => 0) None
              (mkSettings TextType EmptyString None Center 1 48
                 EmptyString EmptyString)
              Samples.photo
              {| canvas_width := 550; canvas_height := 400 |} t r
              (Binary64.exactRect Binary64.oneNotchDest)
              Samples.photoUrl (300, 400))
    as (_ & ((Hw & _) & (Hh & _)) & _ & (Hx & _) & _).
  - qcompare.
  - qcompare.
  - split; qcompare.
  - split; qcompare.
  - repeat split; qcompare.
  - repeat split; qcompare.
  - repeat split; qcompare.
  - repeat split; qcompare.
  - split.
    + cbv zeta in Hw, Hh. unfold crop.
      split; [rewrite Hw | rewrite Hh]; vm_compute; reflexivity.
    + eapply Qle_trans; [exact Hx|]. qcompare.
Defined.

(** C4, as stated, fails: in the 500x400 frame at scale 1.3 the rectangle is
    384.6... by 307.6... image pixels and the buffer 384 by 307, so the
    image point shown 0.15 frame pixels from the right edge of the frame is
    not in the buffer. *)
Lemma crop_drops_edge_strip :
  ~ Spec.cropRoundTrip Samples.photo Samples.frame Samples.zoomed.
Proof.
  intros H.
  assert (Hp : on_surface 1000 1000 Samples.edgePoint)
    by (repeat split; qcompare).
  destruct (proj1 (H Samples.photoUrl Samples.edgePoint Hp)) as [[_ Hx] _].
  - repeat split; qcompare.
  - revert Hx. vm_compute. intros Hx. apply Hx. reflexivity.
Qed.

End CropProps.

(* ================================================================== *)
(** ** The editor: crop extraction and regeneration *)

Module EditorProps.

Import JsString Canvas Service.
Import Controller.
Import Editor.

(** *** Committing updates *)

Lemma commit_nil (st : State) : commit [] st = st.
Proof. reflexivity. Qed.

Lemma commit_app (us vs : list Update) (st : State) :
  commit (us ++ vs) st = commit vs (commit us st).
Proof. unfold commit. apply fold_left_app. Qed.

(** The cells the [catch] and [finally] clauses of [handleRegenerate] write,
    and those they leave alone. *)
Lemma commit_caught_finally (err : Thrown) (st : State) :
  let st' := commit (regenerateCaught err ++ regenerateFinally) st in
  error st' = Some match err with
                   | ErrorObject message => message
                   | OtherValue =>
                       "An unknown error occurred during regeneration."%string
                   end /\
  activeOperation st' = None /\
  pendingAspectRatio st' = None /\
  displayImage st' = displayImage st /\
  originalImage st' = originalImage st /\
  aspectRatio st' = aspectRatio st /\
  transform st' = transform st.
Proof. destruct st; cbn. repeat split. Qed.

Lemma commit_begin_regenerate (st : State) :
  let st' := commit [SetActiveOperation (Some RegenerateOp); SetError None] st in
  displayImage st' = displayImage st /\
  originalImage st' = originalImage st /\
  aspectRatio st' = aspectRatio st /\
  transform st' = transform st.
Proof. destruct st; cbn. repeat split. Qed.

(** *** The guard of [handleApplyCrop] *)

Lemma notReady_iff (st : State) :
  notReady st = true <->
  Spec.notLoaded st \/ truthy (pendingAspectRatio st) = false
  \/ canvasRef st = None.
Proof.
  unfold notReady, Spec.notLoaded.
  rewrite !orb_true_iff, !negb_true_iff.
  destruct (imageDimensions st), (canvasRef st);
    intuition (try discriminate; auto).
Qed.

Lemma ready_components (st : State) :
  notReady st = false ->
  exists src pending canvas,
    displayImage st = Some src /\
    pendingAspectRatio st = Some pending /\
    canvasRef st = Some canvas.
Proof.
  unfold notReady. rewrite !orb_false_iff, !negb_false_iff.
  intros [[[Hd _] Hp] Hc].
  destruct (displayImage st) as [src|]; [|discriminate].
  destruct (pendingAspectRatio st) as [pending|]; [|discriminate].
  destruct (canvasRef st) as [canvas|]; [|discriminate].
  exists src, pending, canvas. repeat split.
Qed.

(** What [handleApplyCrop] queues once past its guards: the same four
    updates whatever the transform. *)
Lemma handleApplyCrop_ready browser (st : State) src mainImage :
  notReady st = false ->
  displayImage st = Some src ->
  imageLoads browser src = Some mainImage ->
  context2d browser = true ->
  exists pending canvas mime,
    pendingAspectRatio st = Some pending /\
    canvasRef st = Some canvas /\
    let url :=
      toDataURL browser (cropCanvas mainImage canvas (transform st)) mime in
    handleApplyCrop browser st
    = [SetDisplayImage (Some url);
       SetOriginalImage (withBase64 (afterComma url));
       SetAspectRatio pending;
       SetPendingAspectRatio None].
Proof.
  intros Hready Hsrc Hload Hctx.
  destruct (ready_components st Hready) as (src' & pending & canvas & Hd & Hp & Hc).
  unfold handleApplyCrop. rewrite Hready, Hd, Hp, Hc.
  rewrite Hsrc in Hd. injection Hd as <-.
  rewrite Hload, Hctx. cbn.
  eexists pending, canvas, _. repeat split.
Qed.

(** What [handleRegenerate] does on the guard that [handleApplyCrop]
    shares: with an image uploaded and a ratio pending, a state that is not
    ready makes its [try] block throw, and the message is reported. *)
Lemma handleRegenerate_not_ready browser (st : State) original :
  originalImage st = Some original ->
  truthy (pendingAspectRatio st) = true ->
  notReady st = true ->
  handleRegenerate browser st
  = [SetActiveOperation (Some RegenerateOp); SetError None]
    ++ regenerateCaught (ErrorObject "Canvas or image not ready.")
    ++ regenerateFinally.
Proof.
  intros Horig Hpending Hguard. unfold handleRegenerate, prepareCrop.
  rewrite Horig, Hpending, Hguard. reflexivity.
Qed.

(** C6.  [handleApplyCrop] (line 144) and [handleRegenerate] (line 182)
    test the same four cells before they extract the crop.  Take a state
    with an image uploaded and a ratio pending in which the image is not
    loaded (no display image, or its dimensions not known yet).  There
    [handleRegenerate] reports ["Canvas or image not ready."] and leaves the
    image, the committed ratio and the transform as they were; but
    [handleApplyCrop] returns without queuing anything: nothing is
    extracted and the state is retained, yet no error is reported, so the
    [InvalidState] policy of the specification fails at every such state
    that shows no error already. *)
Theorem handleApplyCrop_reports_nothing browser (st : State) original :
  originalImage st = Some original ->
  truthy (pendingAspectRatio st) = true ->
  Spec.notLoaded st ->
  let applied := commit (handleApplyCrop browser st) st in
  let regenerated := commit (handleRegenerate browser st) st in
  (handleApplyCrop browser st = [] /\ applied = st) /\
  (error st = None -> ~ Spec.invalidStatePolicy browser st) /\
  (error regenerated = Some "Canvas or image not ready."%string /\
   displayImage regenerated = displayImage st /\
   originalImage regenerated = originalImage st /\
   aspectRatio regenerated = aspectRatio st /\
   transform regenerated = transform st).
Proof.
  intros Horig Hpending Hload applied regenerated.
  assert (Hguard : notReady st = true).
  { apply notReady_iff. left. exact Hload. }
  assert (Hnone : handleApplyCrop browser st = []).
  { unfold handleApplyCrop. rewrite Hguard. reflexivity. }
  split; [|split].
  - split; [exact Hnone|]. subst applied. rewrite Hnone. reflexivity.
  - intros Herr Hpolicy.
    destruct (Hpolicy (or_intror Hload)) as [Hreported _].
    apply Hreported. rewrite Hnone. exact Herr.
  - subst regenerated.
    rewrite (handleRegenerate_not_ready browser st original
               Horig Hpending Hguard).
    rewrite commit_app.
    destruct (commit_begin_regenerate st) as (B1 & B2 & B3 & B4).
    destruct (commit_caught_finally (ErrorObject "Canvas or image not ready.")
                (commit [SetActiveOperation (Some RegenerateOp); SetError None] st))
      as (C1 & _ & _ & C4 & C5 & C6 & C7).
    cbv zeta in *.
    repeat split.
    + exact C1.
    + rewrite C4. exact B1.
    + rewrite C5. exact B2.
    + rewrite C6. exact B3.
    + rewrite C7. exact B4.
Qed.

Lemma handleApplyCrop_reports_nothing_witness :
  let st := SessionSamples.undecoded in
  Spec.notLoaded st /\
  error (commit (handleApplyCrop SessionSamples.studio st) st) = None /\
  ~ Spec.invalidStatePolicy SessionSamples.studio st /\
  error (commit (handleRegenerate SessionSamples.studio st) st)
  = Some "Canvas or image not ready."%string.
Proof.
  intros st.
  assert (Hload : Spec.notLoaded st) by (right; reflexivity).
  destruct (handleApplyCrop_reports_nothing SessionSamples.studio st
              {| base64 := "V0lERQ=="; mimeType := "image/png" |})
    as ((_ & Hsame) & Hpolicy & Hreg & _).
  - reflexivity.
  - reflexivity.
  - exact Hload.
  - split; [exact Hload|]. split; [rewrite Hsame; reflexivity|].
    split; [apply Hpolicy; reflexivity | exact Hreg].
Defined.

(** *** Failure of the generation call *)

(** A generation call that fails makes the service reject with an [Error]
    that carries the underlying message. *)
Lemma regenerate_rejects generateContent base64Image mimeType label :
  generationFails
    (generateContent (regenerateRequest base64Image mimeType label)) ->
  exists message,
    regenerateImageToAspectRatio generateContent base64Image mimeType label
    = Rejected (ErrorObject message) /\
    message
    = match generateContent (regenerateRequest base64Image mimeType label) with
      | Rejected (ErrorObject m) =>
          ("Failed to regenerate image: " ++ m)%string
      | Rejected OtherValue =>
          "An unknown error occurred while regenerating the image."%string
      | Resolved _ =>
          ("Failed to regenerate image: "
           ++ "No image data found in the response from regeneration.")%string
      end.
Proof.
  unfold regenerateImageToAspectRatio, generationFails.
  destruct (generateContent (regenerateRequest base64Image mimeType label))
    as [response | [m|]].
  - intros ->. eexists; split; reflexivity.
  - intros _. eexists; split; reflexivity.
  - intros _. eexists; split; reflexivity.
Qed.

(** C7.  In a run of [handleRegenerate] that reaches the generation call,
    if that call throws or returns no image data, then, whatever state
    [cur] the queued updates are applied to (the state [st] of the call in
    particular): the service rejects with an [Error] whose message carries
    the underlying one (the message the call threw, or that no image data
    was found), that message is what is reported, the display image, the
    original image and the committed aspect ratio are those of [cur], and
    the pending selection and the active operation are cleared. *)
Theorem regenerate_failure_is_atomic browser (st cur : State)
    original croppedBase64 mime label :
  originalImage st = Some original ->
  truthy (pendingAspectRatio st) = true ->
  prepareCrop browser st original = Cropped croppedBase64 mime label ->
  generationFails
    (generateContent browser (regenerateRequest croppedBase64 mime label)) ->
  let st' := commit (handleRegenerate browser st) cur in
  let message :=
    match generateContent browser
            (regenerateRequest croppedBase64 mime label) with
    | Rejected (ErrorObject underlying) =>
        ("Failed to regenerate image: " ++ underlying)%string
    | Rejected OtherValue =>
        "An unknown error occurred while regenerating the image."%string
    | Resolved _ =>
        ("Failed to regenerate image: "
         ++ "No image data found in the response from regeneration.")%string
    end in
  regenerateImageToAspectRatio (generateContent browser)
    croppedBase64 mime label = Rejected (ErrorObject message) /\
  error st' = Some message /\
  displayImage st' = displayImage cur /\
  originalImage st' = originalImage cur /\
  aspectRatio st' = aspectRatio cur /\
  pendingAspectRatio st' = None /\
  activeOperation st' = None.
Proof.
  intros Horig Hpending Hprep Hfail st' message.
  destruct (regenerate_rejects _ _ _ _ Hfail) as (m & Hrej & Hm).
  fold message in Hm. subst m.
  subst st'. unfold handleRegenerate.
  rewrite Horig, Hpending, Hprep, Hrej. cbn [negb].
  rewrite commit_app.
  destruct (commit_begin_regenerate cur) as (B1 & B2 & B3 & _).
  destruct (commit_caught_finally (ErrorObject message)
              (commit [SetActiveOperation (Some RegenerateOp); SetError None] cur))
    as (C1 & C2 & C3 & C4 & C5 & C6 & _).
  cbv zeta in *.
  repeat split.
  - exact C1.
  - rewrite C4. exact B1.
  - rewrite C5. exact B2.
  - rewrite C6. exact B3.
  - exact C3.
  - exact C2.
Qed.

Lemma regenerate_failure_is_atomic_witness :
  let st := Samples.loadedEditor Samples.covering in
  let st' := commit (handleRegenerate Samples.browser st) st in
  error st' = Some "Failed to regenerate image: quota exceeded"%string /\
  displayImage st' = displayImage st /\
  originalImage st' = originalImage st /\
  aspectRatio st' = aspectRatio st /\
  pendingAspectRatio st' = None.
Proof.
  intros st st'.
  destruct (regenerate_failure_is_atomic Samples.browser st st
              {| base64 := "UEhPVE8="; mimeType := "image/png" |}
              "Q1JPUA==" "image/png" "1:1")
    as (_ & Herr & Hd & Ho & Ha & Hp & _).
  - reflexivity.
  - reflexivity.
  - reflexivity.
  - exact I.
  - repeat split; assumption.
Defined.

End EditorProps.

(* ================================================================== *)
(** ** Aspect-ratio parsing *)

Module GeometryProps.

Import JsString JsNum Geometry.
Local Open Scope string_scope.

(** [split] never returns the empty array. *)
Lemma split_nonempty sep s : split sep s <> [].
Proof.
  destruct s as [|c rest]; cbn; [discriminate|].
  destruct (Ascii.eqb c sep); [discriminate|].
  destruct (split sep rest); discriminate.
Qed.

(** A string that includes the separator splits in at least two pieces, so
    the array pattern of [parseAspectRatio] always finds its two elements. *)
Lemma split_two sep s :
  includes s (String sep EmptyString) = true ->
  exists w h rest, split sep s = w :: h :: rest.
Proof.
  induction s as [|c s IH]; cbn.
  - discriminate.
  - intros H.
    destruct (Ascii.eqb_spec c sep) as [->|Hne].
    + destruct (split sep s) as [|h rest] eqn:E.
      * exfalso. exact (split_nonempty sep s E).
      * exists EmptyString, h, rest. reflexivity.
    + destruct (ascii_dec sep c) as [->|_]; [congruence|].
      cbn in H. destruct (IH H) as (w & h & rest & ->).
      exists (String c w), h, rest. reflexivity.
Qed.

(** The two declarations of [parseAspectRatio] compute the same function. *)
Lemma parseAspectRatio_editor_same (ratioStr : string) :
  parseAspectRatio_editor ratioStr = parseAspectRatio ratioStr.
Proof.
  unfold parseAspectRatio_editor, parseAspectRatio.
  destruct (String.eqb_spec ratioStr "original") as [->|_]; reflexivity.
Qed.

(** The examples of the specification. *)
Example parse_16_9 : parseAspectRatio "16:9" = Some (Fin (16 # 9)).
Proof. reflexivity. Qed.

Example parse_rejects :
  parseAspectRatio "abc" = None /\
  parseAspectRatio "4:0" = None /\
  parseAspectRatio "4" = None.
Proof. repeat split. Qed.

(** A zero ratio is falsy where [drawImageWithWatermark] tests
    [if (targetRatio)], a negative one is not. *)
Remark zero_ratio_is_falsy :
  truthy_ratio (parseAspectRatio "0:5") = false /\
  parseAspectRatio "4:-3" = Some (Fin (-4 # 3)) /\
  truthy_ratio (parseAspectRatio "4:-3") = true.
Proof. repeat split. Qed.

(** C10.  There are strings of the form ["W:H"] whose sides convert to
    numbers, with a non-zero denominator, for which [parseAspectRatio]
    returns 0 and not [null]: ["0:5"] and [":5"], for either declaration of
    the function. *)
Theorem parseAspectRatio_returns_zero :
  (parseAspectRatio "0:5" = Some (Fin 0) /\
   parseAspectRatio ":5" = Some (Fin 0)) /\
  (parseAspectRatio_editor "0:5" = Some (Fin 0) /\
   parseAspectRatio_editor ":5" = Some (Fin 0)) /\
  (Number "0" = Fin 0 /\ Number "" = Fin 0 /\ Number "5" = Fin 5).
Proof. repeat split. Qed.

End GeometryProps.

(* ================================================================== *)
(** * Further properties of the sources *)

(** ** The controller: composition, drags and zooms *)

Module ControllerMore.

Import Controller QFacts ControllerProps Zoom.

(** Clamping twice is clamping once. *)
Theorem clampPosition_idempotent (t : Transform) c d :
  Teq (clampPosition (clampPosition t c d) c d) (clampPosition t c d).
Proof.
  assert (K : forall v lo,
             Qmin 0 (Qmax (Qmin 0 (Qmax v lo)) lo) == Qmin 0 (Qmax v lo)).
  { intros v lo. destruct (Qlt_le_dec 0 lo) as [Hpos | Hneg].
    - rewrite (clamp_collapse v lo Hpos). apply clamp_collapse, Hpos.
    - destruct (clamp_range v lo Hneg) as [H1 H2]. apply clamp_id; assumption. }
  unfold Teq, clampPosition; cbn. repeat split; apply K.
Qed.

Lemma wheelCandidate_clamps_target e c d (prev : Transform) :
  wheelCandidate e c d prev = clampPosition (wheelTarget e prev) c d.
Proof. reflexivity. Qed.

Lemma dragUpdate_clamps_target dx dy c d (prev : Transform) :
  dragUpdate dx dy c d prev = clampPosition (dragTarget dx dy prev) c d.
Proof. reflexivity. Qed.

(** On a covered frame a drag moves each coordinate by the pointer's
    displacement, except that it stops at the bound the displacement would
    cross. *)
Theorem drag_moves_or_stops dx dy c d (prev : Transform) :
  covers c d prev ->
  let lowX := canvas_width c - width d * scale prev in
  let lowY := canvas_height c - height d * scale prev in
  let t := dragUpdate dx dy c d prev in
  (lowX <= x prev + dx <= 0 -> x t == x prev + dx) /\
  (0 <= x prev + dx -> x t == 0) /\
  (x prev + dx <= lowX -> x t == lowX) /\
  (lowY <= y prev + dy <= 0 -> y t == y prev + dy) /\
  (0 <= y prev + dy -> y t == 0) /\
  (y prev + dy <= lowY -> y t == lowY).
Proof.
  intros [Hw Hh] lowX lowY t.
  assert (Lx : lowX <= 0) by (unfold lowX; lra).
  assert (Ly : lowY <= 0) by (unfold lowY; lra).
  assert (K : forall v lo, lo <= 0 ->
             (lo <= v <= 0 -> Qmin 0 (Qmax v lo) == v) /\
             (0 <= v -> Qmin 0 (Qmax v lo) == 0) /\
             (v <= lo -> Qmin 0 (Qmax v lo) == lo)).
  { intros v lo Hlo. repeat split.
    - intros [H1 H2]. apply clamp_id; assumption.
    - intros H. apply Q.min_l. apply Qle_trans with v; [exact H|].
      apply Q.le_max_l.
    - intros H. rewrite (Q.max_r v lo H). apply Q.min_r, Hlo. }
  destruct (K (x prev + dx) lowX Lx) as (X1 & X2 & X3).
  destruct (K (y prev + dy) lowY Ly) as (Y1 & Y2 & Y3).
  subst t. unfold dragUpdate, clampPosition; cbn.
  fold lowX lowY. repeat split; assumption.
Qed.

Lemma drag_moves_or_stops_witness :
  x (dragUpdate 50 0 Samples.frame Samples.bigImage Samples.covering) == -50 /\
  x (dragUpdate 150 0 Samples.frame Samples.bigImage Samples.covering) == 0.
Proof.
  destruct (drag_moves_or_stops 50 0 Samples.frame Samples.bigImage
              Samples.covering) as (H1 & _).
  - split; qcompare.
  - destruct (drag_moves_or_stops 150 0 Samples.frame Samples.bigImage
                Samples.covering) as (_ & H2 & _).
    + split; qcompare.
    + split.
      * rewrite H1; [qcompare | split; qcompare].
      * apply H2. qcompare.
Defined.

(** *** Runs of events *)

(** With no button pressed, pointer moves, releases and leaves are ignored:
    the transform stays as it is, and the hook stays idle, until the next
    press or wheel event. *)
Theorem moves_without_press_are_ignored canvas enabled dims evs :
  forall st : HookState,
    isDragging st = false ->
    forallb (fun ev => negb (pressesOrZooms ev)) evs = true ->
    transform (run canvas enabled dims evs st) = transform st /\
    isDragging (run canvas enabled dims evs st) = false.
Proof.
  induction evs as [|ev evs IH]; intros st Hidle Hevs; cbn [run].
  - split; [reflexivity | exact Hidle].
  - cbn in Hevs. apply andb_true_iff in Hevs. destruct Hevs as [Hev Hrest].
    assert (Hstep :
              transform (dispatch canvas enabled dims ev st) = transform st /\
              isDragging (dispatch canvas enabled dims ev st) = false).
    { unfold dispatch.
      destruct canvas as [c|], enabled, dims as [d|];
        try (split; [reflexivity | exact Hidle]).
      destruct ev as [e| | |e|e]; cbn in Hev; try discriminate; cbn.
      - split; reflexivity.
      - split; reflexivity.
      - unfold handleMouseMove. rewrite Hidle. cbn.
        split; [reflexivity | exact Hidle]. }
    destruct Hstep as [Ht Hd].
    destruct (IH _ Hd Hrest) as [IH1 IH2].
    split; [rewrite IH1; exact Ht | exact IH2].
Qed.

Lemma moves_without_press_are_ignored_witness :
  transform (run (Some Samples.frame) true (Some Samples.bigImage)
               MoreSamples.hover MoreSamples.idle)
  = Samples.covering.
Proof.
  apply (moves_without_press_are_ignored (Some Samples.frame) true
           (Some Samples.bigImage) MoreSamples.hover MoreSamples.idle);
    reflexivity.
Defined.

(** Whatever is dragged, the scale only changes on wheel events. *)
Theorem only_wheel_changes_scale canvas enabled dims evs :
  forall st : HookState,
    forallb (fun ev => negb (zooms ev)) evs = true ->
    scale (transform (run canvas enabled dims evs st)) = scale (transform st).
Proof.
  induction evs as [|ev evs IH]; intros st Hevs; cbn [run].
  - reflexivity.
  - cbn in Hevs. apply andb_true_iff in Hevs. destruct Hevs as [Hev Hrest].
    rewrite (IH _ Hrest). unfold dispatch.
    destruct canvas as [c|], enabled, dims as [d|]; try reflexivity.
    destruct ev as [e| | |e|e]; cbn in Hev; try discriminate; cbn;
      try reflexivity.
    unfold handleMouseMove. destruct (isDragging st); reflexivity.
Qed.

Lemma only_wheel_changes_scale_witness :
  scale (transform (run (Some Samples.frame) true (Some Samples.bigImage)
                      MoreSamples.dragging MoreSamples.idle))
  = 1.
Proof.
  apply (only_wheel_changes_scale (Some Samples.frame) true
           (Some Samples.bigImage) MoreSamples.dragging MoreSamples.idle).
  reflexivity.
Defined.

(** *** Wheel zoom *)

Lemma wheelTarget_scale e (prev : Transform) :
  scale (wheelTarget e prev)
  = Qmax (1 # 10) (scale prev + deltaY e * - (1 # 1000)).
Proof. reflexivity. Qed.

Lemma wheelTarget_scale_floor e (prev : Transform) :
  1 # 10 <= scale (wheelTarget e prev).
Proof. rewrite wheelTarget_scale. apply Q.le_max_l. Qed.

(** A target that covers the frame is accepted, clamped. *)
Lemma wheelUpdate_accepts e c d (prev : Transform) :
  covers c d (wheelTarget e prev) ->
  wheelUpdate e c d prev = clampPosition (wheelTarget e prev) c d.
Proof.
  intros H. unfold wheelUpdate. rewrite wheelCandidate_clamps_target.
  apply clampPosition_covers in H.
  apply revealsEmptySpace_false in H. rewrite H. reflexivity.
Qed.

(** Zooming in (a wheel delta that is not positive) from a transform that
    satisfies the cover invariant is never rejected: the scale does not
    decrease and the invariant still holds. *)
Theorem zoom_in_is_accepted e c d (prev : Transform) :
  deltaY e <= 0 ->
  0 <= width d -> 0 <= height d ->
  0 < scale prev ->
  cover_invariant c d prev ->
  let t := wheelUpdate e c d prev in
  t = wheelCandidate e c d prev /\
  scale t == Qmax (1 # 10) (scale prev + deltaY e * - (1 # 1000)) /\
  scale prev <= scale t /\
  cover_invariant c d t.
Proof.
  intros Hd Hw Hh Hs Hinv t.
  assert (Hup : scale prev <= scale (wheelTarget e prev)).
  { rewrite wheelTarget_scale.
    apply Qle_trans with (scale prev + deltaY e * - (1 # 1000));
      [lra | apply Q.le_max_r]. }
  assert (Hcov : covers c d (wheelTarget e prev)).
  { destruct Hinv as [[Cw Ch] _]. split.
    - apply Qle_trans with (scale prev * width d); [exact Cw|].
      apply Qmult_le_compat_r; assumption.
    - apply Qle_trans with (scale prev * height d); [exact Ch|].
      apply Qmult_le_compat_r; assumption. }
  subst t. rewrite (wheelUpdate_accepts e c d prev Hcov).
  split; [reflexivity|]. split; [|split].
  - rewrite clampPosition_scale, wheelTarget_scale. apply Qeq_refl.
  - rewrite clampPosition_scale. exact Hup.
  - apply clampPosition_cover_invariant, Hcov.
Qed.

Lemma zoom_in_is_accepted_witness :
  scale (wheelUpdate MoreSamples.zoomInHere Samples.frame Samples.bigImage
           Samples.covering) == 11 # 10.
Proof.
  destruct (zoom_in_is_accepted MoreSamples.zoomInHere Samples.frame
              Samples.bigImage Samples.covering) as (_ & Hs & _).
  - qcompare.
  - qcompare.
  - qcompare.
  - qcompare.
  - repeat split; qcompare.
  - cbv zeta in Hs. rewrite Hs. qcompare.
Defined.

(** A scale below 0.1 does not survive a wheel event: from a transform that
    covers the frame with a scale below 0.1, every wheel event, whatever its
    direction or amount, returns a scale of at least 0.1. *)
Theorem wheel_lifts_small_scale e c d (prev : Transform) :
  0 < scale prev -> scale prev < 1 # 10 ->
  0 <= width d -> 0 <= height d ->
  covers c d prev ->
  1 # 10 <= scale (wheelUpdate e c d prev).
Proof.
  intros Hs Hsmall Hw Hh [Cw Ch].
  pose proof (wheelTarget_scale_floor e prev) as Hfloor.
  assert (Hcov : covers c d (wheelTarget e prev)).
  { split.
    - apply Qle_trans with (scale prev * width d); [exact Cw|].
      apply Qmult_le_compat_r; [lra | assumption].
    - apply Qle_trans with (scale prev * height d); [exact Ch|].
      apply Qmult_le_compat_r; [lra | assumption]. }
  rewrite (wheelUpdate_accepts e c d prev Hcov). exact Hfloor.
Qed.

Lemma wheel_lifts_small_scale_witness :
  1 # 10 <= scale (wheelUpdate Samples.zoomOutNotch Samples.frame
                     MoreSamples.hugeImage MoreSamples.tiny).
Proof.
  apply wheel_lifts_small_scale.
  - qcompare.
  - qcompare.
  - qcompare.
  - qcompare.
  - split; qcompare.
Defined.

(** *** Runs of events and the cover invariant *)

(** On a canvas and an image of positive sizes, every state the hook
    reaches, by any sequence of presses, moves, releases, leaves and wheel
    events, from a transform that satisfies the cover invariant, has a
    transform that satisfies it, whether the transform is enabled (the
    listeners installed) or not. *)
Theorem run_keeps_cover_invariant c d enabled evs (st : HookState) :
  positive_sizes c d ->
  cover_invariant c d (transform st) ->
  cover_invariant c d (transform (run (Some c) enabled (Some d) evs st)).
Proof.
  intros _. revert st.
  induction evs as [|ev evs IH]; intros st H; cbn [run].
  - exact H.
  - apply IH. destruct enabled.
    + apply dispatch_cover_invariant, H.
    + rewrite dispatch_disabled by (right; left; reflexivity). exact H.
Qed.

Lemma run_keeps_cover_invariant_witness :
  cover_invariant Samples.frame Samples.bigImage
    (transform (run (Some Samples.frame) true (Some Samples.bigImage)
                  MoreSamples.gestures MoreSamples.idle)).
Proof.
  apply (run_keeps_cover_invariant Samples.frame Samples.bigImage true
           MoreSamples.gestures MoreSamples.idle).
  - repeat split; qcompare.
  - repeat split; qcompare.
Defined.

End ControllerMore.
(* ================================================================== *)
(** ** Sizing the canvas *)

Module SizingProps.

Import JsNum Geometry Canvas.
Import Controller QFacts ControllerProps.
Import Sizing.

(** A quotient by a positive number, as the number it is: the one whose
    product with the divisor is the dividend. *)
Lemma Qdiv_def (a b : Q) : 0 < b -> b * (a / b) == a.
Proof. intros Hb. apply Qdiv_mult_cancel, Qpos_neq0, Hb. Qed.

Lemma Qdiv_pos (a b : Q) : 0 < a -> 0 < b -> 0 < a / b.
Proof. intros Ha Hb. apply Qlt_shift_div_l; [exact Hb | lra]. Qed.

(** Replaces a quotient by a fresh variable with its defining equation. *)
Ltac name_quotient a b Hb q Hq :=
  pose proof (Qdiv_def a b Hb) as Hq;
  set (q := a / b) in *; clearbody q.

Lemma Qlt_div_r (a b c : Q) : 0 < c -> (a < b / c <-> a * c < b).
Proof.
  intros Hc. name_quotient b c Hc q Hq. split; intros H; nra.
Qed.

Section Fitted.

Variables containerWidth containerHeight ratio : Q.
Hypothesis width_pos : 0 < containerWidth.
Hypothesis height_pos : 0 < containerHeight.
Hypothesis ratio_pos : 0 < ratio.

(** The two outcomes of the fit. *)
Lemma fitted_cases :
  (ratio * containerHeight < containerWidth /\
   fitted containerWidth containerHeight ratio
   = {| canvas_width := containerHeight * ratio;
        canvas_height := containerHeight |}) \/
  (containerWidth <= ratio * containerHeight /\
   fitted containerWidth containerHeight ratio
   = {| canvas_width := containerWidth;
        canvas_height := containerWidth / ratio |}).
Proof.
  unfold fitted.
  destruct (Qltb ratio (containerWidth / containerHeight)) eqn:E.
  - left. apply Qltb_true, Qlt_div_r in E; [|assumption]. split; [lra | reflexivity].
  - right. apply Qltb_false in E. split; [|reflexivity].
    apply Qnot_lt_le. intros H. apply (Qle_not_lt _ _ E).
    apply Qlt_div_r; [assumption | lra].
Qed.




Lemma fitted_positive :
  0 < canvas_width (fitted containerWidth containerHeight ratio) /\
  0 < canvas_height (fitted containerWidth containerHeight ratio).
Proof.
  destruct fitted_cases as [[H ->] | [H ->]]; cbn.
  - split; [|assumption]. apply Qmult_lt_0_compat; assumption.
  - split; [assumption|]. apply Qdiv_pos; assumption.
Qed.

End Fitted.

(** *** The canvas for an aspect-ratio string *)







End SizingProps.

(* ================================================================== *)
(** ** The crop rectangle *)

Module CropMore.

Import JsNum Geometry Canvas.
Import Controller QFacts ControllerProps.
Import Sizing SizingProps.
Import Editor.



End CropMore.

(* ================================================================== *)
(** ** The watermark: opacity, absence and placement *)

Module WatermarkMore.

Import Controller QFacts ControllerProps.
Import Canvas Watermark Sizing SizingProps WatermarkProps.

(** What [applyWatermark] paints, and with which opacity. *)
Lemma applyWatermark_painted measureText watermarkLogo settings
    canvasWidth canvasHeight alpha :
  exists marks,
    painted alpha
      (applyWatermark measureText watermarkLogo settings canvasWidth canvasHeight)
    = (map (fun op => (op, opacity settings)) marks, 1) /\
    (type settings = TextType /\ text settings = EmptyString \/
     type settings = LogoType /\ watermarkLogo = None ->
     marks = []).
Proof.
  unfold applyWatermark.
  destruct (type settings) eqn:Ety.
  - destruct (String.eqb_spec (text settings) "") as [Etx | Ntx]; cbn.
    + exists []. split; [reflexivity | intros _; reflexivity].
    + eexists [_]. split; [reflexivity|].
      intros [[_ H] | [H _]]; [contradiction | discriminate].
  - destruct watermarkLogo as [logo|]; cbv beta iota.
    + rewrite drawWatermarkLogo_draws. cbn.
      eexists [_]. split; [reflexivity|].
      intros [[H _] | [_ H]]; discriminate.
    + cbn. exists []. split; [reflexivity | intros _; reflexivity].
Qed.

(** The opacity of the watermark never reaches the base image.  Whatever
    [globalAlpha] the context starts with, a frame paints the image first,
    with that starting value; everything painted after it is painted with
    the opacity of the settings; and the context is left at 1. *)
Theorem opacity_only_on_watermark measureText watermarkLogo settings
    mainImage canvas (t : Transform) isPending alpha :
  exists dest marks,
    painted alpha
      (drawImageWithWatermark measureText watermarkLogo settings mainImage
         canvas t isPending)
    = ((DrawImage mainImage None dest, alpha)
       :: map (fun op => (op, opacity settings)) marks, 1).
Proof.
  destruct (applyWatermark_painted measureText watermarkLogo settings
              (canvas_width canvas) (canvas_height canvas) alpha)
    as (marks & Hmarks & _).
  unfold drawImageWithWatermark.
  destruct isPending; cbn [app painted]; rewrite Hmarks;
    eexists _, marks; reflexivity.
Qed.

(** No watermark is painted in text mode with an empty text, nor in logo
    mode without a decoded logo (whatever the text). *)
Theorem no_watermark_without_content measureText watermarkLogo settings
    canvasWidth canvasHeight alpha :
  type settings = TextType /\ text settings = EmptyString \/
  type settings = LogoType /\ watermarkLogo = None ->
  painted alpha
    (applyWatermark measureText watermarkLogo settings canvasWidth canvasHeight)
  = ([], 1).
Proof.
  intros H.
  destruct (applyWatermark_painted measureText watermarkLogo settings
              canvasWidth canvasHeight alpha) as (marks & Hmarks & Hnone).
  rewrite Hmarks, (Hnone H). reflexivity.
Qed.

Lemma no_watermark_without_content_witness :
  painted 1
    (applyWatermark (fun _ _ _ => 100) None
       (mkSettings LogoType "My Watermark" None BottomRight (1 # 2) 48
          "#ffffff" "Inter") 500 400)
  = ([], 1).
Proof.
  apply no_watermark_without_content. right. split; reflexivity.
Defined.

(** After "Clear Watermark" nothing is painted over the image, whatever the
    settings were and whatever logo is still held decoded. *)
Theorem cleared_watermark_paints_nothing measureText watermarkLogo prev
    canvasWidth canvasHeight alpha :
  painted alpha
    (applyWatermark measureText watermarkLogo
       (SettingsPanel.handleClearWatermark prev) canvasWidth canvasHeight)
  = ([], 1).
Proof.
  apply no_watermark_without_content. left. split; reflexivity.
Qed.

(** *** Placement of the logo *)

Lemma logoSize_nonneg logo canvasWidth canvasHeight :
  0 < image_width logo -> 0 < image_height logo ->
  0 <= canvasWidth -> 0 <= canvasHeight ->
  0 <= fst (logoSize logo canvasWidth canvasHeight) /\
  0 <= snd (logoSize logo canvasWidth canvasHeight).
Proof.
  intros Hlw Hlh Hw Hh.
  pose proof (Qdiv_pos _ _ Hlw Hlh) as Hr.
  destruct (logoSize_cases logo canvasWidth canvasHeight)
    as [[_ ->] | [_ ->]]; cbn [fst snd].
  - split; [|lra]. apply Qmult_le_0_compat; lra.
  - split; [lra|].
    name_quotient (canvasWidth * (15 # 100))
      (image_width logo / image_height logo) Hr q Hq.
    nra.
Qed.

(** An offset resolved for content no larger than 15% of an axis of at
    least 24 pixels keeps the content on the axis. *)
Lemma anchorOffset_inside axisSize contentSize a :
  0 <= contentSize -> contentSize <= (15 # 100) * axisSize ->
  20 <= (85 # 100) * axisSize ->
  0 <= Spec.anchorOffset axisSize contentSize a /\
  Spec.anchorOffset axisSize contentSize a + contentSize <= axisSize.
Proof.
  intros H0 H1 H2. destruct a; cbn; rewrite ?Qhalf; split; lra.
Qed.

(** On a canvas at least 24 pixels wide and high (20 <= 0.85 * size), the
    logo is drawn entirely inside the canvas, for every anchor. *)
Theorem logo_stays_inside_canvas logo settings canvasWidth canvasHeight :
  0 < image_width logo -> 0 < image_height logo ->
  20 <= (85 # 100) * canvasWidth -> 20 <= (85 # 100) * canvasHeight ->
  exists r,
    drawWatermarkLogo (Some logo) settings canvasWidth canvasHeight
    = [DrawImage logo None r] /\
    inside r canvasWidth canvasHeight.
Proof.
  intros Hlw Hlh Hw Hh.
  eexists. split; [apply drawWatermarkLogo_draws|].
  destruct (logoSize_nonneg logo canvasWidth canvasHeight Hlw Hlh) as [Nw Nh];
    try lra.
  assert (Bw : fst (logoSize logo canvasWidth canvasHeight)
               <= (15 # 100) * canvasWidth)
    by (apply logoSize_width_bound; assumption).
  assert (Bh : snd (logoSize logo canvasWidth canvasHeight)
               <= (15 # 100) * canvasHeight)
    by (apply logoSize_height_bound; assumption).
  unfold inside; cbn. rewrite !getPosition_horizontal.
  split; apply anchorOffset_inside; assumption.
Qed.

Lemma logo_stays_inside_canvas_witness :
  exists r,
    drawWatermarkLogo (Some Samples.logo)
      (mkSettings LogoType EmptyString None TopRight (1 # 2) 48
         EmptyString EmptyString) 500 400
    = [DrawImage Samples.logo None r] /\
    inside r 500 400.
Proof.
  apply logo_stays_inside_canvas; qcompare.
Defined.

End WatermarkMore.

(* ================================================================== *)
(** ** Strings: searching, splitting and data URLs *)

Module StringFacts.

Import JsString.
Local Open Scope string_scope.

Lemma prefix_nil (s : string) : String.prefix "" s = true.
Proof. destruct s; reflexivity. Qed.

Lemma prefix_app (a b : string) : String.prefix a (a ++ b) = true.
Proof.
  induction a as [|c a IH]; cbn.
  - apply prefix_nil.
  - destruct (ascii_dec c c) as [_|N]; [exact IH | contradiction].
Qed.

Lemma includes_here (a b : string) : includes (a ++ b) a = true.
Proof.
  destruct a as [|c a]; cbn.
  - destruct b; reflexivity.
  - destruct (ascii_dec c c) as [_|N]; [|contradiction].
    rewrite prefix_app. reflexivity.
Qed.

Lemma includes_later (a s sub : string) :
  includes s sub = true -> includes (a ++ s) sub = true.
Proof.
  intros H. induction a as [|c a IH]; cbn.
  - exact H.
  - rewrite IH. apply orb_true_r.
Qed.

(** A string includes whatever was spliced into it. *)
Lemma includes_spliced (a b c : string) : includes (a ++ b ++ c) b = true.
Proof. apply includes_later, includes_here. Qed.

Lemma prefix_app_both (b u t : string) :
  String.prefix u t = true -> String.prefix (b ++ u) (b ++ t) = true.
Proof.
  intros H. induction b as [|c b IH]; cbn.
  - exact H.
  - destruct (ascii_dec c c) as [_|N]; [exact IH | contradiction].
Qed.

Lemma includes_prefix (s sub : string) :
  String.prefix sub s = true -> includes s sub = true.
Proof. intros H. destruct s; cbn [includes]; rewrite H; reflexivity. Qed.

(** ... together with any prefix of what follows the splice. *)
Lemma includes_spliced_with (a b u t : string) :
  String.prefix u t = true -> includes (a ++ b ++ t) (b ++ u) = true.
Proof.
  intros H. apply includes_later, includes_prefix, prefix_app_both, H.
Qed.

(** Searching for one code unit. *)
Lemma includes_unit_cons (sep c : ascii) (s : string) :
  includes (String c s) (String sep "")
  = (Ascii.eqb sep c || includes s (String sep ""))%bool.
Proof.
  cbn. destruct (ascii_dec sep c) as [->|N].
  - rewrite prefix_nil, Ascii.eqb_refl. reflexivity.
  - apply Ascii.eqb_neq in N. rewrite N. reflexivity.
Qed.

Lemma includes_unit_app (sep : ascii) (a b : string) :
  includes (a ++ b) (String sep "")
  = (includes a (String sep "") || includes b (String sep ""))%bool.
Proof.
  induction a as [|c a IH].
  - cbn [append]. destruct b; reflexivity.
  - cbn [append]. rewrite !includes_unit_cons, IH. apply orb_assoc.
Qed.

(** A string without the separator splits into itself, *)
Lemma split_without (sep : ascii) (s : string) :
  includes s (String sep "") = false -> split sep s = [s].
Proof.
  induction s as [|c s IH]; intros H.
  - reflexivity.
  - rewrite includes_unit_cons in H. apply orb_false_iff in H.
    destruct H as [Hc Hs]. cbn.
    rewrite Ascii.eqb_sym, Hc, (IH Hs). reflexivity.
Qed.

(** and what precedes the first separator is the first piece. *)
Lemma split_at_first (sep : ascii) (a rest : string) :
  includes a (String sep "") = false ->
  split sep (a ++ String sep rest) = a :: split sep rest.
Proof.
  induction a as [|c a IH]; intros H.
  - cbn. rewrite Ascii.eqb_refl. reflexivity.
  - rewrite includes_unit_cons in H. apply orb_false_iff in H.
    destruct H as [Hc Ha]. cbn.
    rewrite Ascii.eqb_sym, Hc, (IH Ha). reflexivity.
Qed.

End StringFacts.

(* ================================================================== *)
(** ** The generation service *)

Module ServiceMore.

Import JsString StringFacts Service ServiceEdit.
Local Open Scope string_scope.

(** The loop over the parts returns the data of the first part that has
    inline data: the parts before it have none. *)
Lemma firstInlineData_some (ps : list Part) (d : string) :
  firstInlineData ps = Some d <->
  exists before part after inline,
    ps = (before ++ part :: after)%list /\
    Forall (fun p => inlineData p = None) before /\
    inlineData part = Some inline /\ data inline = d.
Proof.
  induction ps as [|p ps IH]; cbn.
  - split; [discriminate|].
    intros (before & part & after & inline & E & _).
    destruct before; discriminate E.
  - destruct (inlineData p) as [i|] eqn:Ep.
    + split.
      * intros [= <-]. exists [], p, ps, i. repeat split; auto.
      * intros (before & part & after & inline & E & Hb & Hp & Hd).
        destruct before as [|b before]; cbn in E; injection E as -> ->.
        -- rewrite Ep in Hp. injection Hp as ->. rewrite Hd. reflexivity.
        -- inversion Hb; subst. congruence.
    + rewrite IH. split.
      * intros (before & part & after & inline & -> & Hb & Hp & Hd).
        exists (p :: before), part, after, inline. repeat split; auto.
      * intros (before & part & after & inline & E & Hb & Hp & Hd).
        destruct before as [|b before]; cbn in E; injection E as -> ->.
        -- congruence.
        -- inversion Hb; subst.
           exists before, part, after, inline. repeat split; auto.
Qed.

Lemma firstInlineData_none (ps : list Part) :
  firstInlineData ps = None <-> Forall (fun p => inlineData p = None) ps.
Proof.
  induction ps as [|p ps IH]; cbn.
  - split; auto.
  - destruct (inlineData p) eqn:Ep.
    + split; [discriminate|]. intros H. inversion H; subst. congruence.
    + rewrite IH. split; intros H.
      * constructor; assumption.
      * inversion H; assumption.
Qed.

(** Both service functions resolve exactly when the call resolves and a
    part of the first candidate carries inline data, and then with the data
    of the first such part; later parts and other candidates are never
    looked at. *)
Theorem services_return_first_image generateContent base64Image mimeType arg d :
  (editImageWithGemini generateContent base64Image mimeType arg = Resolved d <->
   exists response before part after inline,
     generateContent (editRequest base64Image mimeType arg) = Resolved response /\
     responseParts response = (before ++ part :: after)%list /\
     Forall (fun p => inlineData p = None) before /\
     inlineData part = Some inline /\ data inline = d) /\
  (regenerateImageToAspectRatio generateContent base64Image mimeType arg
   = Resolved d <->
   exists response before part after inline,
     generateContent (regenerateRequest base64Image mimeType arg)
     = Resolved response /\
     responseParts response = (before ++ part :: after)%list /\
     Forall (fun p => inlineData p = None) before /\
     inlineData part = Some inline /\ data inline = d).
Proof.
  split.
  - unfold editImageWithGemini.
    destruct (generateContent (editRequest base64Image mimeType arg))
      as [response | err].
    + destruct (firstInlineData (responseParts response)) as [d'|] eqn:E.
      * split.
        -- intros [= <-]. apply firstInlineData_some in E.
           destruct E as (before & part & after & inline & E).
           exists response, before, part, after, inline. split; [reflexivity | exact E].
        -- intros (r & before & part & after & inline & [= <-] & H).
           assert (E' : firstInlineData (responseParts response) = Some d)
             by (apply firstInlineData_some; eauto 6).
           congruence.
      * split; [discriminate|].
        intros (r & before & part & after & inline & [= <-] & H).
        assert (E' : firstInlineData (responseParts response) = Some d)
          by (apply firstInlineData_some; eauto 6).
        congruence.
    + split; [discriminate|]. intros (r & ? & ? & ? & ? & H & _). discriminate H.
  - unfold regenerateImageToAspectRatio.
    destruct (generateContent (regenerateRequest base64Image mimeType arg))
      as [response | err].
    + destruct (firstInlineData (responseParts response)) as [d'|] eqn:E.
      * split.
        -- intros [= <-]. apply firstInlineData_some in E.
           destruct E as (before & part & after & inline & E).
           exists response, before, part, after, inline. split; [reflexivity | exact E].
        -- intros (r & before & part & after & inline & [= <-] & H).
           assert (E' : firstInlineData (responseParts response) = Some d)
             by (apply firstInlineData_some; eauto 6).
           congruence.
      * split; [discriminate|].
        intros (r & before & part & after & inline & [= <-] & H).
        assert (E' : firstInlineData (responseParts response) = Some d)
          by (apply firstInlineData_some; eauto 6).
        congruence.
    + split; [discriminate|]. intros (r & ? & ? & ? & ? & H & _). discriminate H.
Qed.

(** Neither service function ever rejects with anything but an [Error]:
    whatever the call throws, and also when the response has no image, the
    rejection is an [Error] whose message names the failed operation. *)
Theorem services_reject_with_errors generateContent base64Image mimeType arg :
  (forall reason,
     editImageWithGemini generateContent base64Image mimeType arg
     = Rejected reason ->
     exists message,
       reason = ErrorObject message /\
       (String.prefix "Failed to edit image: " message = true \/
        message = "An unknown error occurred while editing the image.")) /\
  (forall reason,
     regenerateImageToAspectRatio generateContent base64Image mimeType arg
     = Rejected reason ->
     exists message,
       reason = ErrorObject message /\
       (String.prefix "Failed to regenerate image: " message = true \/
        message = "An unknown error occurred while regenerating the image.")).
Proof.
  split; intros reason.
  - unfold editImageWithGemini.
    destruct (generateContent (editRequest base64Image mimeType arg))
      as [response | [m|]].
    + destruct (firstInlineData (responseParts response)); [discriminate|].
      intros [= <-]. eexists; split; [reflexivity | left; reflexivity].
    + intros [= <-]. eexists; split; [reflexivity|]. left.
      apply (prefix_app "Failed to edit image: " m).
    + intros [= <-]. eexists; split; [reflexivity | right; reflexivity].
  - unfold regenerateImageToAspectRatio.
    destruct (generateContent (regenerateRequest base64Image mimeType arg))
      as [response | [m|]].
    + destruct (firstInlineData (responseParts response)); [discriminate|].
      intros [= <-]. eexists; split; [reflexivity | left; reflexivity].
    + intros [= <-]. eexists; split; [reflexivity|]. left.
      apply (prefix_app "Failed to regenerate image: " m).
    + intros [= <-]. eexists; split; [reflexivity | right; reflexivity].
Qed.

(** The regeneration request carries the image and its MIME type as given,
    and its instruction names the requested aspect ratio. *)
Theorem regenerate_request_names_ratio base64Image mimeType label :
  let request := regenerateRequest base64Image mimeType label in
  imageData request = base64Image /\
  imageMimeType request = mimeType /\
  includes (promptText request) label = true /\
  includes (promptText request) (label ++ " aspect ratio") = true.
Proof.
  intros request. subst request. unfold regenerateRequest.
  cbn [imageData imageMimeType promptText].
  split; [reflexivity|]. split; [reflexivity|]. split.
  - unfold regeneratePrompt. apply includes_spliced.
  - unfold regeneratePrompt. apply includes_spliced_with. reflexivity.
Qed.

End ServiceMore.

(* ================================================================== *)
(** ** The editor session *)

Module SessionProps.

Import JsString StringFacts Canvas Service ServiceEdit ServiceMore.
Import Controller.
Import Editor EditorActions EditorProps.
Local Open Scope string_scope.

(** *** Data URLs *)

Lemma append_assoc' (a b c : string) : (a ++ b) ++ c = a ++ b ++ c.
Proof. induction a as [|x a IH]; cbn; [reflexivity | rewrite IH; reflexivity]. Qed.

Lemma commaFree_app (a b : string) :
  commaFree a -> commaFree b -> commaFree (a ++ b).
Proof.
  unfold commaFree. intros Ha Hb.
  rewrite includes_unit_app, Ha, Hb. reflexivity.
Qed.

(** What follows the first comma, up to the next one. *)
Lemma afterComma_spec (pre payload : string) :
  commaFree pre -> commaFree payload ->
  afterComma (pre ++ "," ++ payload) = payload.
Proof.
  unfold commaFree, afterComma. intros Hpre Hpay.
  change (pre ++ "," ++ payload) with (pre ++ String "," payload).
  rewrite (split_at_first "," pre payload Hpre).
  rewrite (split_without "," payload Hpay). reflexivity.
Qed.

(** The data URL that [performEdit] and [handleRegenerate] build from a MIME
    type and base64 data gives the data back when it is split at the comma,
    as [handleImageUpload], [handleApplyCrop] and [handleRegenerate] split
    data URLs. *)
Theorem data_url_round_trip (mime payload : string) :
  commaFree mime -> commaFree payload ->
  afterComma ("data:" ++ mime ++ ";base64," ++ payload) = payload.
Proof.
  intros Hm Hp.
  assert (E : "data:" ++ mime ++ ";base64," ++ payload
              = ("data:" ++ mime ++ ";base64") ++ "," ++ payload).
  { rewrite append_assoc'. f_equal. rewrite append_assoc'. reflexivity. }
  rewrite E. apply afterComma_spec; [|exact Hp].
  apply (commaFree_app "data:" (mime ++ ";base64")); [reflexivity|].
  apply commaFree_app; [exact Hm | reflexivity].
Qed.

Lemma data_url_round_trip_witness :
  afterComma ("data:" ++ "image/png" ++ ";base64," ++ "Q1JPUA==") = "Q1JPUA==".
Proof. apply data_url_round_trip; reflexivity. Defined.

(** *** Updates that leave the image alone *)

Lemma commit_keeps_image (us : list Update) : forall st : State,
  forallb (fun u => negb (touchesImage u)) us = true ->
  originalImage (commit us st) = originalImage st /\
  displayImage (commit us st) = displayImage st.
Proof.
  induction us as [|u us IH]; intros st H; cbn in *.
  - split; reflexivity.
  - apply andb_true_iff in H. destruct H as [Hu Hus].
    destruct (IH (apply_update u st) Hus) as [E1 E2].
    unfold commit in *. rewrite E1, E2.
    destruct u, st; cbn in *; try discriminate; split; reflexivity.
Qed.

Lemma commit_keeps_selection (us : list Update) : forall st : State,
  forallb (fun u => negb (touchesSelection u)) us = true ->
  aspectRatio (commit us st) = aspectRatio st /\
  pendingAspectRatio (commit us st) = pendingAspectRatio st /\
  transform (commit us st) = transform st.
Proof.
  induction us as [|u us IH]; intros st H; cbn in *.
  - repeat split.
  - apply andb_true_iff in H. destruct H as [Hu Hus].
    destruct (IH (apply_update u st) Hus) as (E1 & E2 & E3).
    unfold commit in *. rewrite E1, E2, E3.
    destruct u, st; cbn in *; try discriminate; repeat split.
Qed.

Lemma inSync_ext (st st' : State) :
  originalImage st' = originalImage st ->
  displayImage st' = displayImage st ->
  inSync st -> inSync st'.
Proof. unfold inSync. intros -> ->. exact (fun H => H). Qed.

(** *** The handlers, path by path *)

Lemma edit_resolved generateContent b m p d :
  editImageWithGemini generateContent b m p = Resolved d ->
  exists response,
    generateContent (editRequest b m p) = Resolved response /\
    firstInlineData (responseParts response) = Some d.
Proof.
  unfold editImageWithGemini.
  destruct (generateContent (editRequest b m p)) as [response|]; [|discriminate].
  destruct (firstInlineData (responseParts response)) eqn:E; [|discriminate].
  intros [= <-]. exists response. split; [reflexivity | exact E].
Qed.

Lemma regenerate_resolved generateContent b m l d :
  regenerateImageToAspectRatio generateContent b m l = Resolved d ->
  exists response,
    generateContent (regenerateRequest b m l) = Resolved response /\
    firstInlineData (responseParts response) = Some d.
Proof.
  unfold regenerateImageToAspectRatio.
  destruct (generateContent (regenerateRequest b m l)) as [response|];
    [|discriminate].
  destruct (firstInlineData (responseParts response)) eqn:E; [|discriminate].
  intros [= <-]. exists response. split; [reflexivity | exact E].
Qed.

(** The three ways [performEdit] ends. *)
Lemma performEdit_cases browser editPrompt operation (st : State) :
  (originalImage st = None /\
   performEdit browser editPrompt operation st
   = [SetError (Some "Please upload an image first.")]) \/
  (exists original edited,
     originalImage st = Some original /\
     editImageWithGemini (generateContent browser)
       (base64 original) (mimeType original) editPrompt = Resolved edited /\
     performEdit browser editPrompt operation st
     = [SetActiveOperation (Some operation); SetError None;
        SetDisplayImage
          (Some ("data:" ++ mimeType original ++ ";base64," ++ edited));
        SetOriginalImage (withBase64 edited);
        SetActiveOperation None]) \/
  (exists original reason,
     originalImage st = Some original /\
     editImageWithGemini (generateContent browser)
       (base64 original) (mimeType original) editPrompt = Rejected reason /\
     performEdit browser editPrompt operation st
     = [SetActiveOperation (Some operation); SetError None;
        SetError (Some match reason with
                       | ErrorObject message => message
                       | OtherValue => "An unknown error occurred."
                       end);
        SetActiveOperation None]).
Proof.
  unfold performEdit.
  destruct (originalImage st) as [original|]; [|left; split; reflexivity].
  right.
  destruct (editImageWithGemini (generateContent browser) (base64 original)
              (mimeType original) editPrompt) as [edited | reason] eqn:E.
  - left. exists original, edited.
    split; [reflexivity|]. split; [exact E|]. rewrite ?E. reflexivity.
  - right. exists original, reason.
    split; [reflexivity|]. split; [exact E|]. rewrite ?E. reflexivity.
Qed.

(** The ways [handleRegenerate] ends. *)
Lemma handleRegenerate_cases browser (st : State) :
  forallb (fun u => negb (touchesImage u)) (handleRegenerate browser st) = true \/
  (exists original croppedBase64 label newBase64,
     originalImage st = Some original /\
     prepareCrop browser st original
     = Cropped croppedBase64 (mimeType original) label /\
     pendingAspectRatio st = Some label /\
     regenerateImageToAspectRatio (generateContent browser)
       croppedBase64 (mimeType original) label = Resolved newBase64 /\
     handleRegenerate browser st
     = [SetActiveOperation (Some RegenerateOp); SetError None;
        SetDisplayImage
          (Some ("data:" ++ mimeType original ++ ";base64," ++ newBase64));
        SetOriginalImage (withBase64 newBase64);
        SetAspectRatio label;
        SetActiveOperation None; SetPendingAspectRatio None]).
Proof.
  unfold handleRegenerate.
  destruct (originalImage st) as [original|]; [|left; reflexivity].
  destruct (truthy (pendingAspectRatio st)); cbn [negb]; [|left; reflexivity].
  destruct (prepareCrop browser st original) as [|err|b m l] eqn:Eprep;
    try (left; reflexivity).
  assert (Hm : m = mimeType original /\ pendingAspectRatio st = Some l).
  { unfold prepareCrop in Eprep.
    destruct (notReady st); [discriminate|].
    destruct (displayImage st); [|discriminate].
    destruct (pendingAspectRatio st); [|discriminate].
    destruct (canvasRef st); [|discriminate].
    destruct (imageLoads browser s); [|discriminate].
    destruct (context2d browser); cbn in Eprep; [|discriminate].
    injection Eprep as _ <- <-. split; reflexivity. }
  destruct Hm as [-> Hl].
  destruct (regenerateImageToAspectRatio (generateContent browser) b
              (mimeType original) l) as [newBase64 | reason] eqn:E.
  - right. exists original, b, l, newBase64.
    split; [reflexivity|]. split; [exact Eprep|]. split; [exact Hl|].
    split; [exact E|]. rewrite ?E. reflexivity.
  - left. rewrite ?E. reflexivity.
Qed.

(** The ways [handleApplyCrop] ends. *)
Lemma handleApplyCrop_cases browser (st : State) :
  handleApplyCrop browser st = [] \/
  (exists url pending src,
     displayImage st = Some src /\
     pendingAspectRatio st = Some pending /\
     handleApplyCrop browser st
     = [SetDisplayImage (Some url);
        SetOriginalImage (withBase64 (afterComma url));
        SetAspectRatio pending;
        SetPendingAspectRatio None]).
Proof.
  unfold handleApplyCrop.
  destruct (notReady st); [left; reflexivity|].
  destruct (displayImage st) as [src|]; [|left; reflexivity].
  destruct (pendingAspectRatio st) as [pending|]; [|left; reflexivity].
  destruct (canvasRef st) as [canvas|]; [|left; reflexivity].
  destruct (imageLoads browser src) as [mainImage|]; [|left; reflexivity].
  destruct (context2d browser); cbn [negb]; [|left; reflexivity].
  right. eexists _, pending, src. repeat split.
Qed.

(** *** The copy kept for the service follows the image on display *)

Lemma perform_keeps_in_sync browser (a : Action) (st : State) :
  base64Service (generateContent browser) ->
  (forall f, a = Upload (Some f) -> commaFree (fileType f)) ->
  inSync st -> inSync (perform browser a st).
Proof.
  intros Hsvc Hfile Hsync. unfold perform.
  assert (Keep : forall us,
             forallb (fun u => negb (touchesImage u)) us = true ->
             inSync (commit us st)).
  { intros us Hus. destruct (commit_keeps_image us st Hus) as [E1 E2].
    exact (inSync_ext st _ E1 E2 Hsync). }
  assert (Edit : forall p op, inSync (commit (performEdit browser p op st) st)).
  { intros p op.
    destruct (performEdit_cases browser p op st)
      as [[_ ->] | [(o & d & Ho & Hres & ->) | (o & r & _ & _ & ->)]];
      try (apply Keep; reflexivity).
    destruct (edit_resolved _ _ _ _ _ Hres) as (response & Hgen & Hfirst).
    pose proof (Hsvc _ _ _ Hgen Hfirst) as Hd.
    unfold inSync in Hsync. rewrite Ho in Hsync.
    destruct st as [oi di dims pr ao er ar par tr cv]; cbn in *. subst oi.
    destruct di as [url|]; [|contradiction]. destruct Hsync as [_ Hm].
    cbn. split; [apply data_url_round_trip; assumption | exact Hm]. }
  destruct a as [file| | | |ratio| | | | |cw ch]; cbn [handler].
  - destruct file as [f|]; [|apply Keep; reflexivity].
    unfold handleImageUpload.
    destruct (readResult f) as [dataUrl|] eqn:Er; [|apply Keep; reflexivity].
    destruct st as [oi di dims pr ao er ar par tr cv]; cbn.
    split; [reflexivity | apply Hfile; reflexivity].
  - unfold handleEditImage.
    destruct (String.eqb (prompt st) ""); [apply Keep; reflexivity | apply Edit].
  - apply Edit.
  - apply Edit.
  - apply Keep. unfold handleSelectAspectRatio.
    destruct (String.eqb ratio (aspectRatio st)); [reflexivity|].
    destruct (canvasRef st), (imageDimensions st); reflexivity.
  - destruct (handleApplyCrop_cases browser st)
      as [-> | (url & pending & src & Hsrc & _ & ->)]; [apply Keep; reflexivity|].
    unfold inSync in Hsync. rewrite Hsrc in Hsync.
    destruct st as [oi di dims pr ao er ar par tr cv]; cbn in *.
    destruct oi as [o|]; [|contradiction]. destruct Hsync as [_ Hm].
    cbn. split; [reflexivity | exact Hm].
  - destruct (handleRegenerate_cases browser st)
      as [Hkeep | (o & b & l & d & Ho & _ & _ & Hres & ->)];
      [apply Keep, Hkeep|].
    destruct (regenerate_resolved _ _ _ _ _ Hres) as (response & Hgen & Hfirst).
    pose proof (Hsvc _ _ _ Hgen Hfirst) as Hd.
    unfold inSync in Hsync. rewrite Ho in Hsync.
    destruct st as [oi di dims pr ao er ar par tr cv]; cbn in *. subst oi.
    destruct di as [url|]; [|contradiction]. destruct Hsync as [_ Hm].
    cbn. split; [apply data_url_round_trip; assumption | exact Hm].
  - apply Keep. reflexivity.
  - apply (inSync_ext st); [| |exact Hsync];
      unfold decodeEffect; destruct st as [oi di dims pr ao er ar par tr cv];
      destruct (negb (truthy di)); try reflexivity;
      destruct di as [src|]; try reflexivity;
      destruct (imageLoads browser src); reflexivity.
  - apply (inSync_ext st); [| |exact Hsync];
      unfold redrawEffect; destruct st as [oi di dims pr ao er ar par tr cv];
      destruct cv, di as [src|]; try reflexivity;
      destruct (negb (truthy (Some src))); try reflexivity;
      destruct (imageLoads browser src); try reflexivity;
      match goal with
      | |- context [Sizing.canvasSize ?i ?w ?h ?a] =>
          destruct (Sizing.canvasSize i w h a); reflexivity
      end.
Qed.

(** Through any sequence of uploads, edits, ratio selections, crops,
    regenerations and cancellations, the base64 copy of the image that is
    sent to the service stays the payload of the data URL on display, and
    the two are present or absent together; provided the service returns
    base64 data and uploaded files have a MIME type (neither contains a
    comma). *)
Theorem session_keeps_in_sync browser actions : forall st : State,
  base64Service (generateContent browser) ->
  plainUploads actions ->
  inSync st ->
  inSync (session browser actions st).
Proof.
  induction actions as [|a actions IH]; intros st Hsvc Hfiles Hsync; cbn.
  - exact Hsync.
  - apply IH.
    + exact Hsvc.
    + intros f Hin. apply Hfiles. right. exact Hin.
    + apply perform_keeps_in_sync; try assumption.
      intros f ->. apply Hfiles. left. reflexivity.
Qed.

Lemma session_keeps_in_sync_witness :
  inSync
    (session SessionSamples.studio SessionSamples.afternoon
       (initialState (Some Samples.frame))).
Proof.
  apply session_keeps_in_sync.
  - intros request response d H. vm_compute in H. injection H as <-.
    intros H. vm_compute in H. injection H as <-. reflexivity.
  - intros f Hin. repeat (destruct Hin as [H | Hin]; [try discriminate H|]);
      [injection H as <-; reflexivity | destruct Hin].
  - exact I.
Defined.

(** *** Edits *)

(** An edit, a variation or a watermark removal never touches the committed
    aspect ratio, the pending selection or the transform, however it ends. *)
Theorem edit_keeps_selection browser editPrompt operation (st cur : State) :
  let st' := commit (performEdit browser editPrompt operation st) cur in
  aspectRatio st' = aspectRatio cur /\
  pendingAspectRatio st' = pendingAspectRatio cur /\
  transform st' = transform cur.
Proof.
  apply commit_keeps_selection.
  destruct (performEdit_cases browser editPrompt operation st)
    as [[_ ->] | [(o & d & _ & _ & ->) | (o & r & _ & _ & ->)]]; reflexivity.
Qed.

(** When the edit call fails (it throws, or returns no image data), the
    message of the service's error is reported, the display image and the
    original image are left as they are, and the busy marker is cleared. *)
Theorem edit_failure_is_atomic browser editPrompt operation (st cur : State)
    original reason :
  originalImage st = Some original ->
  editImageWithGemini (generateContent browser)
    (base64 original) (mimeType original) editPrompt = Rejected reason ->
  let st' := commit (performEdit browser editPrompt operation st) cur in
  (exists message, reason = ErrorObject message /\ error st' = Some message) /\
  displayImage st' = displayImage cur /\
  originalImage st' = originalImage cur /\
  activeOperation st' = None.
Proof.
  intros Ho Hrej st'.
  destruct (proj1 (services_reject_with_errors _ _ _ _) reason Hrej)
    as (message & -> & _).
  subst st'.
  destruct (performEdit_cases browser editPrompt operation st)
    as [[Hn _] | [(o & d & Ho' & Hres & _) | (o & r & Ho' & Hrej' & ->)]].
  - congruence.
  - rewrite Ho in Ho'. injection Ho' as <-. congruence.
  - rewrite Ho in Ho'. injection Ho' as <-.
    rewrite Hrej in Hrej'. injection Hrej' as <-.
    destruct cur; cbn. repeat split. exists message. split; reflexivity.
Qed.

Lemma edit_failure_is_atomic_witness :
  let st := Samples.loadedEditor Samples.covering in
  let st' := commit (performEdit Samples.browser "Add a retro filter" EditOp st) st in
  error st' = Some "Failed to edit image: quota exceeded" /\
  displayImage st' = displayImage st /\
  originalImage st' = originalImage st.
Proof.
  intros st st'.
  destruct (edit_failure_is_atomic Samples.browser "Add a retro filter" EditOp
              st st {| base64 := "UEhPVE8="; mimeType := "image/png" |}
              (ErrorObject "Failed to edit image: quota exceeded"))
    as ((message & Hm & Herr) & Hd & Ho & _).
  - reflexivity.
  - reflexivity.
  - injection Hm as <-. repeat split; assumption.
Defined.

(** *** Regeneration that succeeds *)

(** When the generation call returns an image, the new image is displayed
    and kept as the original under the same MIME type, the pending ratio
    becomes the committed one, and the pending selection, the busy marker
    and the error are cleared. *)
Theorem regenerate_success_commits browser (st : State)
    original croppedBase64 label newBase64 :
  originalImage st = Some original ->
  prepareCrop browser st original
  = Cropped croppedBase64 (mimeType original) label ->
  regenerateImageToAspectRatio (generateContent browser)
    croppedBase64 (mimeType original) label = Resolved newBase64 ->
  let st' := commit (handleRegenerate browser st) st in
  displayImage st'
  = Some ("data:" ++ mimeType original ++ ";base64," ++ newBase64) /\
  originalImage st'
  = Some {| base64 := newBase64; mimeType := mimeType original |} /\
  aspectRatio st' = label /\
  pendingAspectRatio st' = None /\
  activeOperation st' = None /\
  error st' = None /\
  transform st' = transform st.
Proof.
  intros Ho Hprep Hres st'. subst st'.
  destruct (handleRegenerate_cases browser st)
    as [Hkeep | (o & b & l & d & Ho' & Hprep' & _ & Hres' & ->)].
  - exfalso. revert Hkeep. unfold handleRegenerate.
    rewrite Ho, Hprep, Hres.
    destruct (truthy (pendingAspectRatio st)) eqn:Et; cbn; [discriminate|].
    unfold prepareCrop, notReady in Hprep. rewrite Et in Hprep. cbn in Hprep.
    rewrite !orb_true_r in Hprep. discriminate Hprep.
  - rewrite Ho in Ho'. injection Ho' as <-.
    rewrite Hprep in Hprep'. injection Hprep' as <- <-.
    rewrite Hres in Hres'. injection Hres' as <-.
    destruct st; cbn in *. subst. repeat split.
Qed.

Lemma regenerate_success_commits_witness :
  let st := Samples.loadedEditor Samples.covering in
  let st' := commit (handleRegenerate SessionSamples.studio st) st in
  displayImage st' = Some "data:image/png;base64,TkVX" /\
  aspectRatio st' = "1:1" /\
  pendingAspectRatio st' = None.
Proof.
  intros st st'.
  destruct (regenerate_success_commits SessionSamples.studio st
              {| base64 := "UEhPVE8="; mimeType := "image/png" |}
              "Q1JPUA==" "1:1" "TkVX")
    as (Hd & _ & Ha & Hp & _).
  - reflexivity.
  - reflexivity.
  - reflexivity.
  - repeat split; assumption.
Defined.

(** *** Uploads *)

(** A file that cannot be read is reported and replaces nothing: the
    image, the aspect ratio, the pending selection and the transform stay as
    they are.  A file that is read becomes the image on display, and the
    aspect ratio goes back to the original one with nothing pending. *)
Theorem upload_replaces_or_reports (f : UploadedFile) (cur : State) :
  let st' := commit (handleImageUpload (Some f)) cur in
  match readResult f with
  | None =>
      error st' = Some "Failed to read the file." /\
      displayImage st' = displayImage cur /\
      originalImage st' = originalImage cur /\
      aspectRatio st' = aspectRatio cur /\
      pendingAspectRatio st' = pendingAspectRatio cur /\
      transform st' = transform cur
  | Some dataUrl =>
      error st' = None /\
      displayImage st' = Some dataUrl /\
      originalImage st'
      = Some {| base64 := afterComma dataUrl; mimeType := fileType f |} /\
      aspectRatio st' = "original" /\
      pendingAspectRatio st' = None /\
      transform st' = transform cur
  end.
Proof.
  unfold handleImageUpload.
  destruct (readResult f); destruct cur; cbn; repeat split.
Qed.

(** *** Messages that are never shown *)

Lemma prepareCrop_fails browser (st : State) original err :
  prepareCrop browser st original = Fails err ->
  err = ErrorObject "Canvas or image not ready." \/
  err = ErrorObject "Could not create offscreen context.".
Proof.
  unfold prepareCrop.
  destruct (notReady st); [intros [= <-]; left; reflexivity|].
  destruct (displayImage st); [|intros [= <-]; left; reflexivity].
  destruct (pendingAspectRatio st); [|intros [= <-]; left; reflexivity].
  destruct (canvasRef st); [|intros [= <-]; left; reflexivity].
  destruct (imageLoads browser s); [|discriminate].
  destruct (context2d browser); cbn; [discriminate|].
  intros [= <-]. right; reflexivity.
Qed.

(** The handlers' fallback messages for a thrown value that is not an
    [Error] are never shown: the service only rejects with [Error]s, so
    neither [performEdit] nor [handleRegenerate] ever reports them. *)
Theorem unknown_error_fallbacks_never_shown browser editPrompt operation
    (st : State) :
  ~ In (SetError (Some "An unknown error occurred."))
       (performEdit browser editPrompt operation st) /\
  ~ In (SetError (Some "An unknown error occurred during regeneration."))
       (handleRegenerate browser st).
Proof.
  split.
  - destruct (performEdit_cases browser editPrompt operation st)
      as [[_ ->] | [(o & d & _ & _ & ->) | (o & r & _ & Hrej & ->)]].
    + intros [H | []]. discriminate H.
    + intros [H | [H | [H | [H | [H | []]]]]]; discriminate H.
    + destruct (proj1 (services_reject_with_errors _ _ _ _) r Hrej)
        as (message & -> & [Hp | ->]).
      * intros [H | [H | [H | [H | []]]]]; try discriminate H.
        injection H as ->. discriminate Hp.
      * intros [H | [H | [H | [H | []]]]]; discriminate H.
  - unfold handleRegenerate.
    destruct (originalImage st) as [original|]; [|intros []].
    destruct (truthy (pendingAspectRatio st)); cbn [negb]; [|intros []].
    destruct (prepareCrop browser st original) as [|err|b m l] eqn:Eprep.
    + intros [H | [H | []]]; discriminate H.
    + destruct (prepareCrop_fails _ _ _ _ Eprep) as [-> | ->];
        intros [H | [H | [H | [H | [H | []]]]]]; discriminate H.
    + destruct (regenerateImageToAspectRatio (generateContent browser) b m l)
        as [d | r] eqn:Hres.
      * intros [H | [H | [H | [H | [H | [H | [H | []]]]]]]]; discriminate H.
      * destruct (proj2 (services_reject_with_errors _ _ _ _) r Hres)
          as (message & -> & [Hp | ->]).
        -- intros [H | [H | [H | [H | [H | []]]]]]; try discriminate H.
           injection H as ->. discriminate Hp.
        -- intros [H | [H | [H | [H | [H | []]]]]]; discriminate H.
Qed.

End SessionProps.

(* ================================================================== *)
(** ** Aspect-ratio strings *)

Module GeometryMore.

Import JsString StringFacts JsNum Geometry GeometryProps Decimal.
Local Open Scope string_scope.

(** Only the first two pieces of the string count: what follows a second
    colon is ignored, and each side is converted on its own. *)
Theorem parseAspectRatio_two_sides (w h rest : string) :
  includes w ":" = false -> includes h ":" = false ->
  parseAspectRatio (w ++ ":" ++ h) = ratioOf (Number w) (Number h) /\
  parseAspectRatio (w ++ ":" ++ h ++ ":" ++ rest)
  = ratioOf (Number w) (Number h).
Proof.
  intros Hw Hh. unfold parseAspectRatio, ratioOf. split.
  - rewrite (includes_spliced w ":" h). cbn [negb].
    change (w ++ ":" ++ h) with (w ++ String ":" h).
    rewrite (split_at_first ":" w h Hw), (split_without ":" h Hh).
    reflexivity.
  - rewrite (includes_spliced w ":" (h ++ ":" ++ rest)). cbn [negb].
    change (w ++ ":" ++ h ++ ":" ++ rest)
      with (w ++ String ":" (h ++ String ":" rest)).
    rewrite (split_at_first ":" w _ Hw), (split_at_first ":" h rest Hh).
    destruct (split ":" rest); reflexivity.
Qed.

Lemma parseAspectRatio_two_sides_witness :
  parseAspectRatio "16:9:junk" = Some (Fin (16 # 9)).
Proof.
  destruct (parseAspectRatio_two_sides "16" "9" "junk") as [_ H];
    [reflexivity | reflexivity |].
  exact H.
Defined.

(** *** Numerals *)

Ltac pick_digit := solve [reflexivity | left; reflexivity | right; pick_digit].

Lemma digit_cases (c : ascii) :
  isDecimalDigit c = true ->
  c = "0"%char \/ c = "1"%char \/ c = "2"%char \/ c = "3"%char \/
  c = "4"%char \/ c = "5"%char \/ c = "6"%char \/ c = "7"%char \/
  c = "8"%char \/ c = "9"%char.
Proof.
  intros H.
  destruct c as [[] [] [] [] [] [] [] []];
    try (vm_compute in H; discriminate H); pick_digit.
Qed.

Ltac each_digit c H :=
  destruct (digit_cases c H)
    as [-> | [-> | [-> | [-> | [-> | [-> | [-> | [-> | [-> | ->]]]]]]]]].

Lemma digit_not_white (c : ascii) :
  isDecimalDigit c = true -> isWhiteSpace c = false.
Proof. intros H. each_digit c H; reflexivity. Qed.

Lemma digit_not_colon (c : ascii) :
  isDecimalDigit c = true -> Ascii.eqb ":" c = false.
Proof. intros H. each_digit c H; reflexivity. Qed.

Lemma allDecimal_no_colon (s : string) :
  allDecimal s = true -> includes s ":" = false.
Proof.
  induction s as [|c s IH]; cbn [allDecimal]; intros H.
  - reflexivity.
  - apply andb_true_iff in H. destruct H as [Hc Hs].
    rewrite includes_unit_cons, (digit_not_colon c Hc), (IH Hs). reflexivity.
Qed.

Lemma trimEnd_decimal (s : string) : allDecimal s = true -> trimEnd s = s.
Proof.
  induction s as [|c s IH]; cbn [allDecimal trimEnd]; intros H.
  - reflexivity.
  - apply andb_true_iff in H. destruct H as [Hc Hs].
    rewrite (IH Hs), (digit_not_white c Hc). destruct s; reflexivity.
Qed.

Lemma trim_decimal (s : string) : allDecimal s = true -> trim s = s.
Proof.
  intros H. unfold trim.
  destruct s as [|c s]; [reflexivity|].
  cbn [allDecimal] in H. pose proof H as H'.
  apply andb_true_iff in H'. destruct H' as [Hc Hs].
  cbn [trimStart]. rewrite (digit_not_white c Hc).
  apply trimEnd_decimal. cbn [allDecimal]. exact H.
Qed.

(** Reading the digits of a numeral consumes it. *)
Lemma takeDigits_decimal (s : string) :
  allDecimal s = true ->
  snd (takeDigits 10 s) = "" /\
  (s <> "" -> fst (takeDigits 10 s) <> []).
Proof.
  induction s as [|c s IH]; cbn [allDecimal takeDigits]; intros H.
  - split; [reflexivity | congruence].
  - apply andb_true_iff in H. destruct H as [Hc Hs].
    unfold isDecimalDigit in Hc.
    destruct (digitValue 10 c) as [v|]; [|discriminate Hc].
    destruct (IH Hs) as [E _].
    destruct (takeDigits 10 s) as [ds tail]. cbn in *.
    split; [exact E | discriminate].
Qed.

(** A numeral is converted as a decimal literal without sign. *)
Lemma Number_decimal (s : string) :
  isNumeral s = true ->
  Number s = match unsignedDecimal s with
             | Some q => Fin (Qred q)
             | None => NaN
             end.
Proof.
  unfold isNumeral. intros H. apply andb_true_iff in H. destruct H as [Hne Hs].
  unfold Number. rewrite (trim_decimal s Hs).
  destruct s as [|c s]; [discriminate Hne|].
  cbn [allDecimal] in Hs. apply andb_true_iff in Hs. destruct Hs as [Hc Hs].
  each_digit c Hc;
    try (unfold strDecimalLiteral; cbn -[unsignedDecimal]; reflexivity).
  destruct s as [|p s].
  - unfold strDecimalLiteral; cbn -[unsignedDecimal]; reflexivity.
  - cbn [allDecimal] in Hs. apply andb_true_iff in Hs. destruct Hs as [Hp Hs].
    each_digit p Hp;
      unfold strDecimalLiteral; cbn -[unsignedDecimal]; reflexivity.
Qed.

Lemma unsignedDecimal_numeral (s : string) :
  isNumeral s = true ->
  exists q, unsignedDecimal s = Some q /\ (q == inject_Z (numeralValue s))%Q.
Proof.
  unfold isNumeral. intros H. apply andb_true_iff in H. destruct H as [Hne Hs].
  destruct (takeDigits_decimal s Hs) as [Etail Hds].
  assert (Hnonempty : s <> "").
  { intros ->. discriminate Hne. }
  specialize (Hds Hnonempty).
  unfold unsignedDecimal, numeralValue.
  destruct (takeDigits 10 s) as [ds tail]. cbn [fst snd] in *. subst tail.
  destruct ds as [|d ds]; [congruence|].
  cbn -[Qpower digitsValue inject_Z Qdiv].
  eexists. split; [reflexivity|].
  rewrite app_nil_r. cbn [Qpower Z.of_nat]. field.
Qed.

(** The conversion of a numeral is the number it writes. *)
Lemma Number_numeral (s : string) :
  isNumeral s = true ->
  Number s = Fin (Qred (inject_Z (numeralValue s))).
Proof.
  intros H. rewrite (Number_decimal s H).
  destruct (unsignedDecimal_numeral s H) as (q & -> & Hq).
  f_equal. apply Qred_complete, Hq.
Qed.

Lemma isNumeral_no_colon (s : string) :
  isNumeral s = true -> includes s ":" = false.
Proof.
  unfold isNumeral. intros H. apply andb_true_iff in H.
  apply allDecimal_no_colon, H.
Qed.

(** For numerals [W] and [H], ["W:H"] is rejected exactly when [H] writes
    zero (all its digits are 0); whatever [W] writes, a zero included, the
    string is accepted otherwise. *)
Theorem parseAspectRatio_numerals_rejected (w h : string) :
  isNumeral w = true -> isNumeral h = true ->
  (parseAspectRatio (w ++ ":" ++ h) = None <-> numeralValue h = 0%Z).
Proof.
  intros Hw Hh.
  rewrite (proj1 (parseAspectRatio_two_sides w h ""
                    (isNumeral_no_colon w Hw) (isNumeral_no_colon h Hh))).
  rewrite (Number_numeral w Hw), (Number_numeral h Hh).
  unfold ratioOf. cbn [isNaN is_zero orb].
  assert (Z0 : Qeq_bool (Qred (inject_Z (numeralValue h))) 0
               = (numeralValue h =? 0)%Z).
  { destruct (Z.eqb_spec (numeralValue h) 0) as [E | N].
    - rewrite E. reflexivity.
    - destruct (Qeq_bool (Qred (inject_Z (numeralValue h))) 0) eqn:Q;
        [|reflexivity].
      apply Qeq_bool_eq in Q. rewrite Qred_correct in Q.
      exfalso. apply N. unfold Qeq in Q. cbn in Q. lia. }
  rewrite Z0.
  destruct (Z.eqb_spec (numeralValue h) 0) as [E | N].
  - split; [intros _; exact E | reflexivity].
  - split; [discriminate | intros E; contradiction].
Qed.

Lemma parseAspectRatio_numerals_rejected_witness :
  parseAspectRatio "4:00" = None /\ parseAspectRatio "0:1080" <> None.
Proof.
  split.
  - apply (parseAspectRatio_numerals_rejected "4" "00" eq_refl eq_refl).
    reflexivity.
  - intros H.
    apply (parseAspectRatio_numerals_rejected "0" "1080" eq_refl eq_refl) in H.
    discriminate H.
Defined.

End GeometryMore.
